(** * Prometheus PSF photometry: the least-squares core

    A shallow embedding of the iterative least-squares photometry solver of
    the [prometheus] package and the properties its specification states:

    - [leastsquares.py]  the Jacobian solvers and the covariance estimator,
    - [getpsf_numba.py]  bounding boxes, per-star pixel buffers, [fitpsf],
    - [forced.py]        the single-star solve [solveone],
    - [allfit.py]        the group fitter [AllFitter] and the driver [fit].

    Numbers.  The Python code computes in IEEE doubles; the embedding computes
    in exact canonical rationals ([Qc]), so every identity below is an identity
    of real arithmetic.  Divisions whose divisor may vanish are pointed out
    where they occur.  Integers ([int], array indices, shapes) are [Z].

    Library calls.  Routines of numpy, scipy, scikit-sparse, sep and of the PSF
    model object are not part of the sources; they are gathered in records of
    oracles ([Backend], [PSFModel], ...) over which the embedded functions are
    parameterised.  Concrete instances, used to run the code on explicit
    inputs, are defined next to them. *)

From Stdlib Require Import String Ascii ZArith QArith Qcanon Qround List Bool Lia Lqa.
Import ListNotations.

Set Implicit Arguments.

Open Scope Z_scope.

(* ===================================================================== *)
(** * Part I: the embedded program                                        *)
(* ===================================================================== *)

(** ** Python exceptions and results *)

Inductive exn : Type :=
| ValueError (msg : string)
| NameError (name : string)
| UnboundLocalError (name : string)
| Breakpoint
| TypeError
| LinAlgError
| IndexError
| ZeroDivisionError.

Inductive result (A : Type) : Type :=
| Ok (a : A)
| Raise (e : exn).

Arguments Ok {A} a.
Arguments Raise {A} e.

Definition bind {A B} (r : result A) (k : A -> result B) : result B :=
  match r with
  | Ok a => k a
  | Raise e => Raise e
  end.

Notation "x <- r ;; k" := (bind r (fun x => k))
  (at level 61, r at next level, right associativity).

Definition is_ok {A} (r : result A) : bool :=
  match r with Ok _ => true | Raise _ => false end.

Definition of_option {A} (e : exn) (o : option A) : result A :=
  match o with Some a => Ok a | None => Raise e end.

(** ** Numbers *)

Module Num.

Definition float := Qc.

Definition qz (z : Z) : Qc := Q2Qc (inject_Z z).

Definition leb (a b : Qc) : bool := Qle_bool a b.
Definition ltb (a b : Qc) : bool := negb (Qle_bool b a).
Definition eqb (a b : Qc) : bool := Qeq_bool a b.

(** [np.maximum] and [np.minimum] on two scalars. *)
Definition maximum (a b : Qc) : Qc := if leb a b then b else a.
Definition minimum (a b : Qc) : Qc := if leb a b then a else b.

Definition absq (a : Qc) : Qc := if leb 0%Qc a then a else (- a)%Qc.

Definition sq (a : Qc) : Qc := (a * a)%Qc.

(** [np.round]: to the nearest integer, ties to the even one. *)
Definition np_round (q : Qc) : Z :=
  let f := Qfloor q in
  match Qcompare (q - inject_Z f) (1 # 2) with
  | Lt => f
  | Gt => f + 1
  | Eq => if Z.even f then f else f + 1
  end.

(** [np.floor] followed by [int]. *)
Definition np_floor (q : Qc) : Z := Qfloor q.

(** [np.ceil] followed by [int]. *)
Definition np_ceil (q : Qc) : Z := Qceiling q.

(** [range(n)] *)
Definition range (n : Z) : list Z := map Z.of_nat (seq 0 (Z.to_nat n)).

End Num.

Import Num.

(** ** Arrays *)

Module Arr.

(** [l[k] = v] on a list used as a fixed-size array. *)
Fixpoint set_nth {A} (l : list A) (k : nat) (v : A) : list A :=
  match l, k with
  | [], _ => []
  | _ :: t, O => v :: t
  | h :: t, S k' => h :: set_nth t k' v
  end.

(** A store into a fixed-size buffer.  The index is checked: an index
    outside [0, len) is reported as [IndexError] (compiled numba code does
    not check, the store would land outside the allocation). *)
Definition store {A} (buf : list A) (k : Z) (v : A) : result (list A) :=
  if (0 <=? k) && (k <? Z.of_nat (length buf))
  then Ok (set_nth buf (Z.to_nat k) v)
  else Raise IndexError.

(** [np.zeros(n)], [np.ones(n)], [np.zeros(n)-1], ... *)
Definition full {A} (n : Z) (v : A) : list A := repeat v (Z.to_nat n).

(** A loop whose body may raise. *)
Fixpoint foldM {A S} (body : S -> A -> result S) (l : list A) (s : S) : result S :=
  match l with
  | [] => Ok s
  | a :: t => s' <- body s a ;; foldM body t s'
  end.

(** The index pairs of [for j in range(n1): for i in range(n2):]. *)
Definition range2 (n1 n2 : Z) : list (Z * Z) :=
  flat_map (fun j => map (fun i => (j, i)) (range n2)) (range n1).

(** A map whose function may raise. *)
Fixpoint mapM {A B} (f : A -> result B) (l : list A) : result (list B) :=
  match l with
  | [] => Ok []
  | a :: t => b <- f a ;; bs <- mapM f t ;; Ok (b :: bs)
  end.

(** [np.unique(a)]: the sorted distinct values of [a]. *)
Fixpoint insert_unique (v : Z) (l : list Z) : list Z :=
  match l with
  | [] => [v]
  | h :: t => if v <? h then v :: l
              else if v =? h then l
              else h :: insert_unique v t
  end.

Definition np_unique (a : list Z) : list Z := fold_right insert_unique [] a.

(** The position of [v] in [u] (the length of [u] when absent). *)
Fixpoint index_of (v : Z) (u : list Z) : nat :=
  match u with
  | [] => O
  | h :: t => if v =? h then O else S (index_of v t)
  end.

(** [np.unique(a,return_inverse=True)]: the distinct values and, for every
    entry of [a], its position among them. *)
Definition np_unique_inverse (a : list Z) : list Z * list nat :=
  let u := np_unique a in (u, map (fun v => index_of v u) a).

(** [np.ravel_multi_index((x,y),shape)] on coordinate pairs: row-major flat
    indices; a coordinate outside the shape raises [ValueError]. *)
Definition ravel_multi_index (shape : Z * Z) (xy : list (Z * Z)) : result (list Z) :=
  mapM (fun p : Z * Z =>
          let '(x, y) := p in
          if (0 <=? x) && (x <? fst shape) && (0 <=? y) && (y <? snd shape)
          then Ok (x * snd shape + y)
          else Raise (ValueError "invalid entry in coordinates array")) xy.

(** [np.unravel_index(ind,shape)]: the coordinate arrays of flat indices. *)
Definition unravel_index (shape : Z * Z) (ind : list Z) : result (list Z * list Z) :=
  if forallb (fun u => (0 <=? u) && (u <? fst shape * snd shape)) ind
  then Ok (map (fun u => u / snd shape) ind, map (fun u => u mod snd shape) ind)
  else Raise (ValueError "index is out of bounds for array").

(** A list that increases strictly. *)
Fixpoint increasing (l : list Z) : Prop :=
  match l with
  | [] => True
  | h :: t => (forall a, In a t -> h < a) /\ increasing t
  end.

(** [a[lo:lo+n]] *)
Definition slice {A} (a : list A) (lo n : nat) : list A := firstn n (skipn lo a).

End Arr.

Import Arr.

(** ** Strings *)

Module Str.

(** [str.lower] on ASCII strings. *)
Definition lower_char (c : ascii) : ascii :=
  let n := nat_of_ascii c in
  if (65 <=? n)%nat && (n <=? 90)%nat then ascii_of_nat (n + 32) else c.

Fixpoint lower (m : string) : string :=
  match m with
  | EmptyString => EmptyString
  | String c m' => String (lower_char c) (lower m')
  end.

(** [name in names] *)
Definition mem (name : string) (names : list string) : bool :=
  existsb (String.eqb name) names.

End Str.

Import Str.

(* ===================================================================== *)
(** ** Vectors and matrices (numpy arrays of doubles)                     *)
(* ===================================================================== *)

Module LA.

Definition vec := list Qc.

(** A two-dimensional array, row by row. *)
Definition mat := list (list Qc).

(** [np.sum(a)] *)
Definition vsum (a : vec) : Qc := fold_right Qcplus 0%Qc a.

(** Elementwise [a * b], [a - b], [a + b]. *)
Fixpoint zipw {A B C} (f : A -> B -> C) (a : list A) (b : list B) : list C :=
  match a, b with
  | x :: a', y :: b' => f x y :: zipw f a' b'
  | _, _ => []
  end.

Definition vmul (a b : vec) : vec := zipw Qcmult a b.
Definition vsub (a b : vec) : vec := zipw Qcminus a b.
Definition vadd (a b : vec) : vec := zipw Qcplus a b.

(** [np.dot(a,b)] of two vectors. *)
Definition dot (a b : vec) : Qc := vsum (vmul a b).

(** [M.shape[1]] (a matrix without rows has no columns here). *)
Definition ncols (M : mat) : nat := length (hd [] M).

(** [M[:,k]] *)
Definition col (k : nat) (M : mat) : vec := map (fun row => nth k row 0%Qc) M.

(** [M.T] *)
Definition transpose (M : mat) : mat := map (fun k => col k M) (seq 0 (ncols M)).

(** [M @ v] *)
Definition matvec (M : mat) (v : vec) : vec := map (fun row => dot row v) M.

(** [A @ B] *)
Definition matmul (A B : mat) : mat :=
  map (fun row => map (fun k => dot row (col k B)) (seq 0 (ncols B))) A.

(** [np.diag(w)] *)
Definition diag (w : vec) : mat :=
  map (fun i => map (fun j => if Nat.eqb i j then nth i w 0%Qc else 0%Qc)
                    (seq 0 (length w)))
      (seq 0 (length w)).

(** [M * c] for a scalar [c]. *)
Definition mscale (M : mat) (c : Qc) : mat := map (map (fun a => (a * c)%Qc)) M.

(** [jac * weight.reshape(-1,1)]: row [i] of [jac] times [weight[i]]. *)
Definition scale_rows (jac : mat) (weight : vec) : mat :=
  zipw (fun row w => map (fun a => (a * w)%Qc) row) jac weight.

(** [np.sum] of a two-dimensional array. *)
Definition msum (M : mat) : Qc := vsum (map vsum M).

(** [a * M] with [a] of shape [(n,)] and [M] of shape [(n,n)]: numpy
    broadcasts [a] along the rows, entry [(i,j)] is [a[j] * M[i][j]]. *)
Definition bcast_mul (a : vec) (M : mat) : mat := map (fun row => vmul a row) M.

(** A rectangular array: every row has the length of the first. *)
Definition rect (M : mat) : Prop := Forall (fun row => length row = ncols M) M.

(** [np.max(a)] *)
Definition np_max (a : vec) : result Qc :=
  match a with
  | [] => Raise (ValueError "zero-size array to reduction operation maximum")
  | x :: a' => Ok (fold_left maximum a' x)
  end.

End LA.

Import LA.

(* ===================================================================== *)
(** ** leastsquares.py                                                    *)
(* ===================================================================== *)

Module LeastSquares.

(** The numerical library routines [leastsquares.py] calls. *)
Record Backend := {
  (** [np.linalg.qr(a)], the factors [(q, r)] *)
  np_linalg_qr : mat -> result (mat * mat);
  (** [np.linalg.inv(a)] *)
  np_linalg_inv : mat -> result mat;
  (** [np.linalg.svd(a)], the factors [(u, s, vt)] *)
  np_linalg_svd : mat -> result (mat * vec * mat);
  (** [np.linalg.cholesky(a)], the lower factor *)
  np_linalg_cholesky : mat -> result mat;
  (** [scipy.linalg.solve_triangular(a,b)] with its default arguments *)
  solve_triangular : mat -> vec -> result vec;
  (** [sksparse.cholmod.cholesky(A)(b)] *)
  cholmod_solve : mat -> vec -> result vec
}.

Section Solvers.

Variable B : Backend.

(** [if weight is not None: resid = resid * weight;
     jac = jac * weight.reshape(-1,1)], the first statement of every solver. *)
Definition apply_weight (jac : mat) (resid : vec) (weight : option vec) : mat * vec :=
  match weight with
  | Some w => (scale_rows jac w, vmul resid w)
  | None => (jac, resid)
  end.

Definition qr_jac_solve (jac : mat) (resid : vec) (weight : option vec) : result vec :=
  let '(jac, resid) := apply_weight jac resid weight in
  qr <- np_linalg_qr B jac ;;
  let '(q, r) := qr in
  rinv <- np_linalg_inv B r ;;
  Ok (matvec rinv (matvec (transpose q) resid)).

Definition svd_jac_solve (jac : mat) (resid : vec) (weight : option vec) : result vec :=
  let '(jac, resid) := apply_weight jac resid weight in
  usv <- np_linalg_svd B jac ;;
  let '(u, s, vt) := usv in
  let sinv := map (fun si => if eqb si 0%Qc then 0%Qc else (1 / si)%Qc) s in
  let npars := length s in
  Ok (matvec (transpose vt) (vmul (firstn npars (matvec (transpose u) resid)) sinv)).

Definition cholesky_jac_sparse_solve (jac : mat) (resid : vec) (weight : option vec)
  : result vec :=
  let '(jac, resid) := apply_weight jac resid weight in
  let A := matmul (transpose jac) jac in
  let b := matvec (transpose jac) resid in
  cholmod_solve B A b.

Definition cholesky_solve (A : mat) (b : vec) : result vec :=
  L <- np_linalg_cholesky B A ;;
  let Lstar := transpose L in
  y <- solve_triangular B L b ;;
  solve_triangular B Lstar y.

Definition cholesky_jac_solve (jac : mat) (resid : vec) (weight : option vec)
  : result vec :=
  let '(jac, resid) := apply_weight jac resid weight in
  let A := matmul (transpose jac) jac in
  let b := matvec (transpose jac) resid in
  cholesky_solve A b.

(** [jac_solve(jac,resid,method=None,weight=None)] *)
Definition jac_solve (jac : mat) (resid : vec) (method : option string)
    (weight : option vec) : result vec :=
  match method with
  | Some m =>
      if String.eqb m "qr" then qr_jac_solve jac resid weight
      else if String.eqb m "svd" then svd_jac_solve jac resid weight
      else if String.eqb m "cholesky" then cholesky_jac_solve jac resid weight
      else if String.eqb m "sparse" then cholesky_jac_sparse_solve jac resid weight
      else Raise (ValueError (m ++ " not supported"))
  | None => Raise TypeError
  end.

(** [jac_covariance(jac,resid,wt=None)].  A one-dimensional [wt] is replaced
    by [np.diag(wt)], and it is this matrix that enters the chi-square
    [np.sum(resid**2 * wt)]. *)
Definition jac_covariance (jac : mat) (resid : vec) (wt : option vec) : result mat :=
  let npix := length jac in
  let npars := ncols jac in
  let wt := option_map diag wt in
  let hess := match wt with
              | Some W => matmul (transpose jac) (matmul W jac)
              | None => matmul (transpose jac) jac
              end in
  cov_orig <- np_linalg_inv B hess ;;
  let chisq := match wt with
               | Some W => msum (bcast_mul (map sq resid) W)
               | None => vsum (map sq resid)
               end in
  Ok (mscale cov_orig (chisq / (qz (Z.of_nat npix) - qz (Z.of_nat npars)))%Qc).

End Solvers.

(** The weighted normal equations of the specification,
    [(J^T W J) x = J^T W r], for a weight matrix [W]. *)
Definition normal_matrix (J W : mat) : mat := matmul (transpose J) (matmul W J).

Definition normal_rhs (J W : mat) (r : vec) : vec := matvec (transpose J) (matvec W r).

Definition solves_normal_equations (J W : mat) (r x : vec) : Prop :=
  matvec (normal_matrix J W) x = normal_rhs J W r.

(** The chi-square of the specification, [sum_i w_i * r_i^2]. *)
Definition chisq_weighted (w r : vec) : Qc :=
  vsum (zipw (fun wi ri => (wi * (ri * ri))%Qc) w r).

End LeastSquares.

(* ===================================================================== *)
(** ** The library routines in exact arithmetic                           *)
(* ===================================================================== *)

(** An instance of the numerical backend that computes in [Qc], to run the
    solvers on explicit inputs.  A factorisation whose entries are not
    rational is reported as [LinAlgError]. *)
Module Exact.

(** The square root of a rational square. *)
Definition sqrt_exact (q : Qc) : option Qc :=
  let n := Qnum q in
  let d := Zpos (Qden q) in
  let sn := Z.sqrt n in
  let sd := Z.sqrt d in
  if (0 <=? n) && (sn * sn =? n) && (sd * sd =? d)
  then Some (Q2Qc (Qmake sn (Z.to_pos sd)))
  else None.

(** Cholesky-Banachiewicz, row by row; only the lower triangle of [A] is
    read.  [chol_left] computes the entries of a row left of the diagonal
    from the rows above. *)
Fixpoint chol_left (Ai : vec) (Ls : list vec) (j : nat) (acc : vec) : vec :=
  match Ls with
  | [] => acc
  | Lj :: Ls' =>
      let lij := ((nth j Ai 0 - dot acc Lj) / nth j Lj 0)%Qc in
      chol_left Ai Ls' (S j) (acc ++ [lij])
  end.

Fixpoint chol_rows (A : mat) (i : nat) (Ls : list vec) : result (list vec) :=
  match A with
  | [] => Ok Ls
  | Ai :: A' =>
      let left := chol_left Ai Ls 0 [] in
      let d := (nth i Ai 0 - dot left left)%Qc in
      if leb d 0%Qc then Raise LinAlgError
      else match sqrt_exact d with
           | Some lii => chol_rows A' (S i) (Ls ++ [left ++ [lii]])
           | None => Raise LinAlgError
           end
  end.

Definition pad (n : nat) (row : vec) : vec := row ++ repeat 0%Qc (n - length row).

Definition cholesky (A : mat) : result mat :=
  Ls <- chol_rows A 0 [] ;; Ok (map (pad (length A)) Ls).

(** Back substitution on the upper triangle of [a]: what
    [scipy.linalg.solve_triangular(a,b)] computes with its default
    [lower=False], whatever [a] holds below the diagonal. *)
Fixpoint back_subst (rows : list vec) (b : vec) (i : nat) : result vec :=
  match rows, b with
  | row :: rows', bi :: b' =>
      xs <- back_subst rows' b' (S i) ;;
      let aii := nth i row 0%Qc in
      if eqb aii 0%Qc then Raise LinAlgError
      else Ok (((bi - dot (skipn (S i) row) xs) / aii)%Qc :: xs)
  | _, _ => Ok []
  end.

Definition solve_upper (a : mat) (b : vec) : result vec :=
  if Nat.eqb (length a) (length b) then back_subst a b 0
  else Raise (ValueError "shapes of a and b are incompatible").

(** Forward substitution on the lower triangle of [a]. *)
Fixpoint forward_subst (rows : list vec) (b : vec) (acc : vec) : result vec :=
  match rows, b with
  | row :: rows', bi :: b' =>
      let aii := nth (length acc) row 0%Qc in
      if eqb aii 0%Qc then Raise LinAlgError
      else forward_subst rows' b' (acc ++ [((bi - dot acc row) / aii)%Qc])
  | _, _ => Ok acc
  end.

(** A sparse Cholesky factor applied to [b]: solves [A x = b]. *)
Definition cholesky_factor_solve (A : mat) (b : vec) : result vec :=
  L <- cholesky A ;;
  y <- forward_subst L b [] ;;
  back_subst (transpose L) y 0.

(** Gauss-Jordan elimination on [[A | I]]. *)
Fixpoint find_pivot (k : nat) (rows : list vec) : option (vec * list vec) :=
  match rows with
  | [] => None
  | r :: rs =>
      if eqb (nth k r 0%Qc) 0%Qc
      then match find_pivot k rs with
           | Some (p, rest) => Some (p, r :: rest)
           | None => None
           end
      else Some (r, rs)
  end.

Definition row_sub (r p : vec) (c : Qc) : vec := zipw (fun a b => (a - c * b)%Qc) r p.

Fixpoint gauss_jordan (steps k : nat) (done rest : list vec) : result (list vec) :=
  match steps with
  | O => Ok done
  | S steps' =>
      match find_pivot k rest with
      | None => Raise LinAlgError
      | Some (p, rest') =>
          let p' := map (fun a => (a / nth k p 0)%Qc) p in
          let elim := fun r => row_sub r p' (nth k r 0%Qc) in
          gauss_jordan steps' (S k) (map elim done ++ [p']) (map elim rest')
      end
  end.

Definition inv (A : mat) : result mat :=
  let n := length A in
  let unit := fun i => map (fun j => if Nat.eqb i j then 1%Qc else 0%Qc) (seq 0 n) in
  rows <- gauss_jordan n 0 [] (zipw (fun row i => row ++ unit i) A (seq 0 n)) ;;
  Ok (map (skipn n) rows).

(** Gram-Schmidt on the columns of [a]: the reduced factors [(q, r)]. *)
Fixpoint gram_schmidt (cols qs rcols : list vec) : result (list vec * list vec) :=
  match cols with
  | [] => Ok (qs, rcols)
  | a :: cols' =>
      let coeffs := map (fun q => dot q a) qs in
      let v := fold_left (fun v qc => vsub v (map (Qcmult (snd qc)) (fst qc)))
                         (combine qs coeffs) a in
      match sqrt_exact (dot v v) with
      | Some rkk =>
          gram_schmidt cols' (qs ++ [map (fun c => (c / rkk)%Qc) v])
                       (rcols ++ [coeffs ++ [rkk]])
      | None => Raise LinAlgError
      end
  end.

Definition of_columns (nrows : nat) (cols : list vec) : mat :=
  map (fun i => map (fun c => nth i c 0%Qc) cols) (seq 0 nrows).

Definition qr (a : mat) : result (mat * mat) :=
  qr <- gram_schmidt (transpose a) [] [] ;;
  Ok (of_columns (length a) (fst qr), of_columns (ncols a) (snd qr)).

Definition backend : LeastSquares.Backend :=
  {| LeastSquares.np_linalg_qr := qr;
     LeastSquares.np_linalg_inv := inv;
     LeastSquares.np_linalg_svd := fun _ => Raise LinAlgError;
     LeastSquares.np_linalg_cholesky := cholesky;
     LeastSquares.solve_triangular := solve_upper;
     LeastSquares.cholmod_solve := cholesky_factor_solve |}.

(** The rationals behind an array, for display. *)
Definition show (v : vec) : list Q := map this v.

(** A two-pixel, one-parameter system: Jacobian, residual, weights (whose
    square roots are [sqrt_w0]) and the increment the solvers return. *)
Definition J0 : mat := [[Q2Qc 3]; [Q2Qc 1]].
Definition r0 : vec := [Q2Qc 1; Q2Qc 0].
Definition w0 : vec := [Q2Qc 1; Q2Qc 4].
Definition x0 : vec := [Q2Qc (3 # 25)].

End Exact.

(* ===================================================================== *)
(** ** getpsf_numba.py: bounding boxes                                    *)
(* ===================================================================== *)

Module GetPSF.

(** [eta = 1e-5] *)
Definition eta : Qc := Q2Qc (1 # 100000).

(** [starbbox(coords,imshape,radius)], returning [np.array([xlo,xhi,ylo,yhi])];
    [imshape] is [(ny,nx)]. *)
Definition starbbox (coords : Qc * Qc) (imshape : Z * Z) (radius : Qc) : list Z :=
  let '(xcen, ycen) := coords in
  let '(ny, nx) := imshape in
  let x0 := (xcen - radius)%Qc in
  let x1 := (xcen + radius)%Qc in
  let y0 := (ycen - radius)%Qc in
  let y1 := (ycen + radius)%Qc in
  let xlo := Z.max (np_round (x0 - eta)%Qc) 0 in
  let xhi := Z.min (np_round (x1 - eta)%Qc + 1) nx in
  let ylo := Z.max (np_round (y0 - eta)%Qc) 0 in
  let yhi := Z.min (np_round (y1 - eta)%Qc + 1) ny in
  [xlo; xhi; ylo; yhi].

(** Images are read through their accessor: [image y x] is [image[y,x]]. *)
Definition image := Z -> Z -> Qc.

(** [npix = int(np.floor(2*fitradius))+2] *)
Definition npix_of (fitradius : Qc) : Z := np_floor (Q2Qc 2 * fitradius)%Qc + 2.

(** [np.sqrt((x-xcen)**2 + (y-ycen)**2) <= fitradius], decided without the
    square root: [sqrt s <= f] holds exactly when [0 <= f] and [s <= f*f]. *)
Definition within_radius (x y : Z) (xcen ycen fitradius : Qc) : bool :=
  leb 0%Qc fitradius &&
  leb (sq (qz x - xcen) + sq (qz y - ycen))%Qc (sq fitradius).

(** The buffers of [getfitstar] and the running [count]. *)
Record fitstar := {
  fs_imdata : list Qc;
  fs_errdata : list Qc;
  fs_xdata : list Z;
  fs_ydata : list Z;
  fs_count : Z;
  fs_mask : list Z
}.

(** The body of the double loop of [getfitstar]. *)
Definition getfitstar_body (img error : image) (xcen ycen fitradius : Qc)
    (bbox : list Z) (st : fitstar) (ji : Z * Z) : result fitstar :=
  let '(j, i) := ji in
  let y := j + nth 2 bbox 0 in
  let x := i + nth 0 bbox 0 in
  let flux := fun j i => img (nth 2 bbox 0 + j) (nth 0 bbox 0 + i) in
  if within_radius x y xcen ycen fitradius then
    imdata <- store (fs_imdata st) (fs_count st) (flux j i) ;;
    errdata <- store (fs_errdata st) (fs_count st) (error j i) ;;
    xdata <- store (fs_xdata st) (fs_count st) x ;;
    ydata <- store (fs_ydata st) (fs_count st) y ;;
    mask <- store (fs_mask st) (fs_count st) 1 ;;
    Ok {| fs_imdata := imdata; fs_errdata := errdata; fs_xdata := xdata;
          fs_ydata := ydata; fs_count := fs_count st + 1; fs_mask := mask |}
  else Ok st.

(** [getfitstar(image,error,xcen,ycen,fitradius)]; [imshape] is [image.shape]. *)
Definition getfitstar (img error : image) (imshape : Z * Z)
    (xcen ycen fitradius : Qc) : result fitstar :=
  let npix := npix_of fitradius in
  let bbox := starbbox (xcen, ycen) imshape fitradius in
  let nx := nth 1 bbox 0 - nth 0 bbox 0 in
  let ny := nth 3 bbox 0 - nth 2 bbox 0 in
  let init := {| fs_imdata := full (npix * npix) 0%Qc;
                 fs_errdata := full (npix * npix) 1%Qc;
                 fs_xdata := full (npix * npix) (-1);
                 fs_ydata := full (npix * npix) (-1);
                 fs_count := 0;
                 fs_mask := full (npix * npix) 0 |} in
  foldM (getfitstar_body img error xcen ycen fitradius bbox) (range2 ny nx) init.

(** The fitting pixels of a star: the pixels of its bounding box, row by row,
    whose distance to the centre is at most [fitradius]. *)
Definition fitpixels (imshape : Z * Z) (xcen ycen fitradius : Qc) : list (Z * Z) :=
  let bbox := starbbox (xcen, ycen) imshape fitradius in
  filter (fun ji => within_radius (snd ji + nth 0 bbox 0) (fst ji + nth 2 bbox 0)
                                  xcen ycen fitradius)
         (range2 (nth 3 bbox 0 - nth 2 bbox 0) (nth 1 bbox 0 - nth 0 bbox 0)).





(** The two-dimensional buffers of [collatefitstars]. *)
Record fitstars := {
  cf_imdata : list (list Qc);
  cf_errdata : list (list Qc);
  cf_xdata : list (list Z);
  cf_ydata : list (list Z);
  cf_bbox : list (list Z);
  cf_ndata : list Z;
  cf_mask : list (list Z)
}.






(** [a[i,:]], a row of a two-dimensional buffer.  The index is checked, as
    for [store]. *)
Definition row {A} (a : list (list A)) (i : nat) : result (list A) :=
  of_option IndexError (nth_error a i).














(** A constant image, to run the functions above on explicit inputs. *)
Definition flat_image : image := fun _ _ => 1%Qc.

End GetPSF.


(* ===================================================================== *)
(** ** getpsf_numba.py: the PSF fitting loop [fitpsf]                    *)
(* ===================================================================== *)

Module FitPSF.

(** [quadratic_bisector(x,y)]: the axis of the parabola through the points;
    [None] stands for the [None] and [nan] results. *)
Definition quadratic_bisector (x y : vec) : option Qc :=
  let n := qz (Z.of_nat (length x)) in
  if (length x <? 3)%nat then None
  else
    let x2 := vmul x x in
    let Sxx := (vsum x2 - vsum x * vsum x / n)%Qc in
    let Sxy := (vsum (vmul x y) - vsum x * vsum y / n)%Qc in
    let Sxx2 := (vsum (vmul x2 x) - vsum x * vsum x2 / n)%Qc in
    let Sx2y := (vsum (vmul x2 y) - vsum x2 * vsum y / n)%Qc in
    let Sx2x2 := (vsum (vmul x2 x2) - vsum x2 * vsum x2 / n)%Qc in
    let denom := (Sxx * Sx2x2 - Sxx2 * Sxx2)%Qc in
    if eqb denom 0%Qc then None
    else
      let a := ((Sx2y * Sxx - Sxy * Sxx2) / denom)%Qc in
      let b := ((Sxy * Sx2x2 - Sx2y * Sxx2) / denom)%Qc in
      if eqb a 0%Qc then None else Some (- b / (Q2Qc 2 * a))%Qc.

(** The [denom] of [quadratic_bisector]: it vanishes when the abscissae
    take fewer than three distinct values. *)
Definition bisector_denom (x : vec) : Qc :=
  let n := qz (Z.of_nat (length x)) in
  let x2 := vmul x x in
  let Sxx := (vsum x2 - vsum x * vsum x / n)%Qc in
  let Sxx2 := (vsum (vmul x2 x) - vsum x * vsum x2 / n)%Qc in
  let Sx2x2 := (vsum (vmul x2 x2) - vsum x2 * vsum x2 / n)%Qc in
  (Sxx * Sx2x2 - Sxx2 * Sxx2)%Qc.

Section Loop.

(** The [PSFFitter] object [pf]. *)
Variable PF : Type.

(** What the loop calls on [pf] and in [models_numba]. *)
Record Calls := {
  (** [pf.fitstars(xdata,bestpar)], which updates the stars of [pf] *)
  fitstars : PF -> vec -> result PF;
  (** [pf.jac(xdata,bestpar)]: the model, raveled, and the Jacobian,
      reshaped to two dimensions *)
  pf_jac : PF -> vec -> result (vec * mat);
  (** [pf.model(xdata,pars)], raveled *)
  pf_model : PF -> vec -> result vec;
  (** [pf.starfit_imdata] and [pf.starfit_errdata], raveled *)
  starfit_imdata : PF -> vec;
  starfit_errdata : PF -> vec;
  (** [mnb.qr_jac_solve(jac,dy,weight=wt)] *)
  mnb_qr_jac_solve : mat -> vec -> vec -> result vec;
  (** [mnb.newlsqpars(bestpar,new_dbeta,bounds,maxsteps)] with the bounds
      and maximum steps of the PSF type *)
  newlsqpars : vec -> vec -> result vec
}.

Variable C : Calls.

(** [np.sum((imdata-m)**2/errdata**2)] *)
Definition chisq_of (pf : PF) (m : vec) : Qc :=
  vsum (zipw Qcdiv (map sq (vsub (starfit_imdata C pf) m))
                   (map sq (starfit_errdata C pf))).

(** [PSFFitter.chisq(pars)] *)
Definition pf_chisq (pf : PF) (pars : vec) : result Qc :=
  m <- pf_model C pf pars ;; Ok (chisq_of pf m).

(** [PSFFitter.linesearch(bestpar,dbeta)], returning [new_dbeta]. *)
Definition linesearch (pf : PF) (bestpar dbeta : vec) : result vec :=
  f0 <- pf_chisq pf bestpar ;;
  f1 <- pf_chisq pf (vadd bestpar (map (Qcmult (Q2Qc (1 # 2))) dbeta)) ;;
  f2 <- pf_chisq pf (vadd bestpar dbeta) ;;
  let alpha :=
    match quadratic_bisector [0%Qc; Q2Qc (1 # 2); 1%Qc] [f0; f1; f2] with
    | Some a => minimum (maximum a 0%Qc) 1%Qc
    | None => 1%Qc
    end in
  Ok (map (Qcmult alpha) dbeta).

(** The local variables of [fitpsf] that live across iterations. *)
Record Locals := {
  niter : Z;
  percdiff : Qc;
  bestpar : vec;
  dchisq : Qc;
  oldchisq : Qc
}.






End Loop.

End FitPSF.

(* ===================================================================== *)
(** ** allfit.py: the pixel index of [AllFitter.__init__]                 *)
(* ===================================================================== *)

Module PixelIndex.

(** The pixel bookkeeping that [AllFitter.__init__] saves on [self]. *)
Record t := {
  ntotpix : Z;
  ind1 : list Z;                   (* unique flat indices, [uind1] *)
  x : list Z;
  y : list Z;
  invindex : list nat;
  invindexlist : list (list nat)
}.

(** The loop [for i in range(self.nstars): ... invindex[count:count+n]]. *)
Fixpoint invindex_slices (invindex : list nat) (count : nat) (sizes : list nat)
  : list (list nat) :=
  match sizes with
  | [] => []
  | n :: rest => slice invindex count n :: invindex_slices invindex (count + n) rest
  end.

(** Lines 126-162 of [allfit.py].  [foot] holds, for every star, its masked
    fitting pixels [(xlist[i][k], ylist[i][k])]; the two coordinate lists of a
    star come from one mask and have the same length.  [shape] is
    [image.shape]. *)
Definition build (shape : Z * Z) (foot : list (list (Z * Z))) : result t :=
  let xlist := map (map fst) foot in
  let ylist := map (map snd) foot in
  let xall := concat xlist in
  let yall := concat ylist in
  ind1 <- ravel_multi_index shape (combine xall yall) ;;
  let '(uind1, invindex) := np_unique_inverse ind1 in
  let ntotpix := Z.of_nat (length uind1) in
  xy <- unravel_index shape uind1 ;;
  Ok {| ntotpix := ntotpix;
        ind1 := uind1;
        x := fst xy;
        y := snd xy;
        invindex := invindex;
        invindexlist := invindex_slices invindex 0 (map (@length Z) xlist) |}.

(** A pixel on an image of the given shape, and its flat index. *)
Definition in_shape (shape : Z * Z) (p : Z * Z) : Prop :=
  0 <= fst p < fst shape /\ 0 <= snd p < snd shape.

Definition flat (shape : Z * Z) (p : Z * Z) : Z := fst p * snd shape + snd p.

End PixelIndex.

(* ===================================================================== *)
(** ** allfit.py: the group fitter                                        *)
(* ===================================================================== *)

Module AllFit.

(** The PSF model object, evaluated pixel by pixel: [psf_eval x y pars] is
    the flux of [self.psf(x,y,pars)] at one pixel for [pars = [height,xcen,
    ycen]]; [psf_deriv x y pars] is the model and the row of the three
    derivatives that [psf.jac] returns for that pixel. *)
Record PSFModel := {
  psf_eval : Z -> Z -> vec -> Qc;
  psf_deriv : Z -> Z -> vec -> Qc * vec
}.

(** What [AllFitter.__init__] computes once and the fit only reads. *)
Record Group := {
  nstars : nat;
  shape : Z * Z;                        (* [image.shape] *)
  xylist : list (list (Z * Z));         (* [(xlist[i][k], ylist[i][k])] *)
  fxylist : list (list (Z * Z));        (* [(fxlist[i][k], fylist[i][k])] *)
  invindexlist : list (list nat);
  ind1 : list Z;
  ntotpix : nat;
  imflatten : vec;
  errflatten : vec
}.

(** The attributes of an [AllFitter] that change during a fit. *)
Record Fitter := {
  pars : vec;                           (* [h0,x0,y0,h1,x1,y1,...] *)
  freezepars : list bool;
  freezestars : list bool;
  starniter : list Z;
  niter : Z;
  njaciter : Z;
  resflatten : vec;
  usepix : list bool;
  skyflatten : vec;
  starsky : vec
}.

Definition set_pars (v : vec) (s : Fitter) : Fitter :=
  {| pars := v; freezepars := freezepars s; freezestars := freezestars s;
     starniter := starniter s; niter := niter s; njaciter := njaciter s;
     resflatten := resflatten s; usepix := usepix s;
     skyflatten := skyflatten s; starsky := starsky s |}.

Definition set_freezepars (v : list bool) (s : Fitter) : Fitter :=
  {| pars := pars s; freezepars := v; freezestars := freezestars s;
     starniter := starniter s; niter := niter s; njaciter := njaciter s;
     resflatten := resflatten s; usepix := usepix s;
     skyflatten := skyflatten s; starsky := starsky s |}.

Definition set_freezestars (v : list bool) (s : Fitter) : Fitter :=
  {| pars := pars s; freezepars := freezepars s; freezestars := v;
     starniter := starniter s; niter := niter s; njaciter := njaciter s;
     resflatten := resflatten s; usepix := usepix s;
     skyflatten := skyflatten s; starsky := starsky s |}.

Definition set_starniter (v : list Z) (s : Fitter) : Fitter :=
  {| pars := pars s; freezepars := freezepars s; freezestars := freezestars s;
     starniter := v; niter := niter s; njaciter := njaciter s;
     resflatten := resflatten s; usepix := usepix s;
     skyflatten := skyflatten s; starsky := starsky s |}.

Definition set_niter (v : Z) (s : Fitter) : Fitter :=
  {| pars := pars s; freezepars := freezepars s; freezestars := freezestars s;
     starniter := starniter s; niter := v; njaciter := njaciter s;
     resflatten := resflatten s; usepix := usepix s;
     skyflatten := skyflatten s; starsky := starsky s |}.

Definition set_njaciter (v : Z) (s : Fitter) : Fitter :=
  {| pars := pars s; freezepars := freezepars s; freezestars := freezestars s;
     starniter := starniter s; niter := niter s; njaciter := v;
     resflatten := resflatten s; usepix := usepix s;
     skyflatten := skyflatten s; starsky := starsky s |}.

Definition set_resflatten (v : vec) (s : Fitter) : Fitter :=
  {| pars := pars s; freezepars := freezepars s; freezestars := freezestars s;
     starniter := starniter s; niter := niter s; njaciter := njaciter s;
     resflatten := v; usepix := usepix s;
     skyflatten := skyflatten s; starsky := starsky s |}.

Definition set_usepix (v : list bool) (s : Fitter) : Fitter :=
  {| pars := pars s; freezepars := freezepars s; freezestars := freezestars s;
     starniter := starniter s; niter := niter s; njaciter := njaciter s;
     resflatten := resflatten s; usepix := v;
     skyflatten := skyflatten s; starsky := starsky s |}.

Definition set_sky (sky : vec * vec) (s : Fitter) : Fitter :=
  {| pars := pars s; freezepars := freezepars s; freezestars := freezestars s;
     starniter := starniter s; niter := niter s; njaciter := njaciter s;
     resflatten := resflatten s; usepix := usepix s;
     skyflatten := fst sky; starsky := snd sky |}.

(** Methods of [AllFitter]: they read and write [self] and may raise; what
    was written before an exception stays written. *)
Definition M (A : Type) : Type := Fitter -> Fitter * result A.

Definition ret {A} (a : A) : M A := fun s => (s, Ok a).

Definition raise {A} (e : exn) : M A := fun s => (s, Raise e).

Definition lift {A} (r : result A) : M A := fun s => (s, r).

Definition bindM {A B} (m : M A) (k : A -> M B) : M B :=
  fun s => match m s with
           | (s', Ok a) => k a s'
           | (s', Raise e) => (s', Raise e)
           end.

Definition get : M Fitter := fun s => (s, Ok s).

Definition modify (f : Fitter -> Fitter) : M unit := fun s => (f s, Ok tt).

Notation "x <~ m ;; k" := (bindM m (fun x => k))
  (at level 61, m at next level, right associativity).

Notation "m ;;; k" := (bindM m (fun _ => k))
  (at level 61, right associativity).

(** *** numpy indexing *)

(** [np.sum(mask)] *)
Definition count_true (mask : list bool) : nat := length (filter (fun b => b) mask).

(** [np.where(mask)[0]], also [np.arange(n)[mask]]. *)
Fixpoint where_true (mask : list bool) (i : nat) : list nat :=
  match mask with
  | [] => []
  | b :: mask' => if b then i :: where_true mask' (S i) else where_true mask' (S i)
  end.

(** [a[mask] = vals], the values filling the selected positions in order. *)
Fixpoint mask_fill {A} (a : list A) (mask : list bool) (vals : list A) : list A :=
  match a, mask with
  | x :: a', true :: mask' =>
      match vals with
      | v :: vals' => v :: mask_fill a' mask' vals'
      | [] => x :: mask_fill a' mask' []
      end
  | x :: a', false :: mask' => x :: mask_fill a' mask' vals
  | _, _ => a
  end.

(** [a[mask] = vals] with numpy's checks: the mask has the length of [a];
    [vals] has one value per selected position, or a single value that is
    broadcast. *)
Definition mask_assign {A} (a : list A) (mask : list bool) (vals : list A)
  : result (list A) :=
  if negb (Nat.eqb (length mask) (length a)) then Raise IndexError
  else if Nat.eqb (length vals) (count_true mask) then Ok (mask_fill a mask vals)
  else match vals with
       | [v] => Ok (mask_fill a mask (repeat v (count_true mask)))
       | _ => Raise (ValueError "cannot assign input values where the mask is true")
       end.

(** [a[mask]] *)
Fixpoint mask_select {A} (a : list A) (mask : list bool) : list A :=
  match a, mask with
  | x :: a', b :: mask' => if b then x :: mask_select a' mask' else mask_select a' mask'
  | _, _ => []
  end.

(** [np.delete(a, np.arange(len(mask))[mask])]: [a] without the entries whose
    flag is set; a set flag beyond the end of [a] is an [IndexError]. *)
Fixpoint delete_where {A} (a : list A) (mask : list bool) : result (list A) :=
  match a, mask with
  | _, [] => Ok a
  | [], b :: mask' => if b then Raise IndexError else delete_where [] mask'
  | x :: a', b :: mask' =>
      r <- delete_where a' mask' ;; Ok (if b then r else x :: r)
  end.

(** [a[idx] += vals] on a one-dimensional array: the sums are formed from
    the old values and then stored in turn. *)
Definition fancy_add (a : vec) (idx : list nat) (vals : vec) : vec :=
  fold_left (fun acc kv => set_nth acc (fst kv) (snd kv))
            (zipw (fun k v => (k, (nth k a 0 + v)%Qc)) idx vals) a.

(** [a[idx] = v] *)
Definition fancy_set {A} (a : list A) (idx : list nat) (v : A) : list A :=
  fold_left (fun acc k => set_nth acc k v) idx a.

(** [m[idx, c] = vals] on a two-dimensional array. *)
Definition fancy_set_col (m : mat) (idx : list nat) (c : nat) (vals : vec) : mat :=
  fold_left (fun acc kv => set_nth acc (fst kv) (set_nth (nth (fst kv) acc []) c (snd kv)))
            (zipw (fun k v => (k, v)) idx vals) m.

(** A two-dimensional image indexed by [[x,y]]. *)
Definition image2 := Z * Z -> Qc.

Definition pixel_eqb (p q : Z * Z) : bool := (fst p =? fst q) && (snd p =? snd q).

(** [im[xind,yind] += vals] *)
Definition fancy_add2 (im : image2) (px : list (Z * Z)) (vals : vec) : image2 :=
  fold_left (fun f pv => fun q => if pixel_eqb q (fst pv) then snd pv else f q)
            (zipw (fun p v => (p, (im p + v)%Qc)) px vals) im.

(** [im.ravel()[ind]] for an image of the given shape. *)
Definition ravel_take (shp : Z * Z) (im : image2) (ind : list Z) : vec :=
  map (fun u => im (u / snd shp, u mod snd shp)) ind.

(** [delete rows]: [np.delete(m, unused, axis=0)] for [unused = ~usepix]. *)
Definition keep_rows {A} (m : list A) (use : list bool) : list A := mask_select m use.

(** [a[off::3]] for the [n] stars, and [a[off::3] = vals]. *)
Definition stride_get (a : vec) (off n : nat) : vec :=
  map (fun i => nth (3 * i + off) a 0%Qc) (seq 0 n).

Definition stride_put (a : vec) (off : nat) (vals : vec) : vec :=
  fold_left (fun acc iv => set_nth acc (3 * fst iv + off) (snd iv))
            (combine (seq 0 (length vals)) vals) a.

(** The library routines the fitter calls besides the PSF model. *)
Record Numerics := {
  (** the solvers behind [lsq.jac_solve] *)
  lsq_backend : LeastSquares.Backend;
  (** [sparse.linalg.lsqr(A,b,atol=1e-4,btol=1e-4)[0]] *)
  lsqr : mat -> vec -> result vec;
  (** [self.sky()]: the new [skyflatten] and [starsky], from the background
      estimator run on the image minus the current model *)
  resky : Fitter -> vec * vec
}.

Section Methods.

Variable G : Group.
Variable P : PSFModel.
Variable N : Numerics.

Definition freepars (s : Fitter) : list bool := map negb (freezepars s).
Definition nfreezepars (s : Fitter) : nat := count_true (freezepars s).
Definition freestars (s : Fitter) : list bool := map negb (freezestars s).
Definition nfreestars (s : Fitter) : nat := count_true (freestars s).

(** [self.psf(xind,yind,pars)] *)
Definition psf_call (px : list (Z * Z)) (pars : vec) : vec :=
  map (fun p => psf_eval P (fst p) (snd p) pars) px.

(** The three parameter flags of star [i] are all set. *)
Definition all3 (fp : list bool) (i : nat) : bool :=
  nth (3 * i) fp false && nth (3 * i + 1) fp false && nth (3 * i + 2) fp false.

(** [np.sum(self.freezepars.reshape(self.nstars,3),axis=1)==3] *)
Definition stars_all_frozen (fp : list bool) : result (list bool) :=
  if Nat.eqb (length fp) (3 * nstars G)
  then Ok (map (all3 fp) (seq 0 (nstars G)))
  else Raise (ValueError "cannot reshape array").

(** The stars that are frozen in [new] and were not in [old]. *)
Definition newly (old new : list bool) : list nat :=
  where_true (zipw (fun o n => negb o && n) old new) 0.

(** [np.where((oldfreezestars==False) & (self.freezestars==True))] *)
Definition newly_frozen (old new : list bool) : result (list nat) :=
  if Nat.eqb (length old) (length new)
  then Ok (newly old new)
  else Raise (ValueError "operands could not be broadcast together").

(** The body of [for i in newfreezestars:] in [freeze]: record the
    iteration and add the star's model over its full footprint to
    [newmodel]. *)
Definition subtract_star (allpars : vec) (nit : Z)
    (acc : list Z * image2) (i : nat) : list Z * image2 :=
  let pars1 := slice allpars (3 * i) 3 in
  let px := nth i (fxylist G) [] in
  let im1 := psf_call px pars1 in
  (set_nth (fst acc) i (nit + 1), fancy_add2 (snd acc) px im1).

(** [AllFitter.freeze(pars,frzpars)] *)
Definition freeze (pars_in : vec) (frzpars : list bool) : M vec :=
  s <~ get ;;
  pars1 <~ lift (mask_assign (pars s) (freepars s) pars_in) ;;
  modify (set_pars pars1) ;;;
  fp1 <~ lift (mask_assign (freezepars s) (freepars s) frzpars) ;;
  modify (set_freezepars fp1) ;;;
  if Nat.eqb (count_true frzpars) 0 then ret pars_in
  else
    fs1 <~ lift (stars_all_frozen fp1) ;;
    modify (set_freezestars fs1) ;;;
    newfreezestars <~ lift (newly_frozen (freezestars s) fs1) ;;
    (match newfreezestars with
     | [] => ret tt
     | _ :: _ =>
         let acc := fold_left (subtract_star pars1 (niter s)) newfreezestars
                              (starniter s, fun _ => 0%Qc) in
         modify (set_starniter (fst acc)) ;;;
         modify (set_resflatten
                   (vsub (resflatten s) (ravel_take (shape G) (snd acc) (ind1 G))))
     end) ;;;
    lift (delete_where pars_in frzpars).


(** The parameters of all the stars at the head of [model] and [jac]: with
    frozen parameters and [allparams] unset, [args] are written into the
    free entries of [self.pars] (which [allpars] aliases).  [jac] first
    compares the lengths and stops in the debugger when they differ. *)
Definition all_pars (args : vec) (allparams check : bool) : M vec :=
  s <~ get ;;
  if (0 <? nfreezepars s)%nat && negb allparams then
    (if check && negb (Nat.eqb (length args) (length (pars s) - nfreezepars s))
     then raise Breakpoint else ret tt) ;;;
    pars1 <~ lift (mask_assign (pars s) (freepars s) args) ;;
    modify (set_pars pars1) ;;;
    ret pars1
  else ret args.

(** The stars that [model] and [jac] loop over. *)
Definition dostars (s : Fitter) (allparams : bool) : list nat :=
  if allparams then seq 0 (nstars G)
  else mask_select (seq 0 (nstars G)) (freestars s).

(** The body of [for i in dostars:] in [model]. *)
Definition model_star (allpars : vec) (acc : vec * list bool) (i : nat)
  : vec * list bool :=
  let pars := slice allpars (3 * i) 3 in
  let invindex := nth i (invindexlist G) [] in
  let im1 := psf_call (nth i (xylist G) []) pars in
  (fancy_add (fst acc) invindex im1, fancy_set (snd acc) invindex true).

(** [AllFitter.model(x,*args,trim=..,allparams=..)] *)
Definition model (args : vec) (trim allparams : bool) : M vec :=
  allpars <~ all_pars args allparams false ;;
  s <~ get ;;
  let acc := fold_left (model_star allpars) (dostars s allparams)
                       (repeat 0%Qc (ntotpix G), repeat false (ntotpix G)) in
  modify (set_usepix (snd acc)) ;;;
  let allim := if trim && (count_true (snd acc) <? ntotpix G)%nat
               then keep_rows (fst acc) (snd acc) else fst acc in
  modify (fun s => set_niter (niter s + 1) s) ;;;
  ret allim.

(** The body of [for i in dostars:] in [jac]. *)
Definition jac_star (allpars : vec) (acc : mat * vec * list bool) (i : nat)
  : mat * vec * list bool :=
  let '(jacm, im, use) := acc in
  let pars := slice allpars (3 * i) 3 in
  let invindex := nth i (invindexlist G) [] in
  let md := map (fun p => psf_deriv P (fst p) (snd p) pars) (nth i (xylist G) []) in
  let m := map fst md in
  let jac1 := map snd md in
  let jacm := fancy_set_col jacm invindex (3 * i) (col 0 jac1) in
  let jacm := fancy_set_col jacm invindex (3 * i + 1) (col 1 jac1) in
  let jacm := fancy_set_col jacm invindex (3 * i + 2) (col 2 jac1) in
  (jacm, fancy_add im invindex m, fancy_set use invindex true).

(** [AllFitter.jac(x,*args,retmodel=True,trim=..,allparams=..)], returning
    the model and the Jacobian. *)
Definition jac (args : vec) (trim allparams : bool) : M (vec * mat) :=
  allpars <~ all_pars args allparams true ;;
  s <~ get ;;
  let '(jacm, im, use) :=
    fold_left (jac_star allpars) (dostars s allparams)
              (repeat (repeat 0%Qc (length (pars s))) (ntotpix G),
               repeat 0%Qc (ntotpix G), repeat false (ntotpix G)) in
  let jacm := if (0 <? nfreezepars s)%nat && negb allparams
              then map (fun row => mask_select row (freepars s)) jacm
              else jacm in
  modify (set_usepix use) ;;;
  let trimmed := trim && (count_true use <? ntotpix G)%nat in
  let jacm := if trimmed then keep_rows jacm use else jacm in
  let im := if trimmed then keep_rows im use else im in
  modify (fun s => set_njaciter (njaciter s + 1) s) ;;;
  ret (im, jacm).

(** The body of [for count,i in enumerate(dostars):] in [heightfit]. *)
Definition heightfit_star (allpars : vec) (acc : mat * list bool * vec) (i : nat)
  : mat * list bool * vec :=
  let '(A, use, guess) := acc in
  let pars := slice allpars (3 * i) 3 in
  let guess := guess ++ [nth 0 pars 0%Qc] in
  let pars := set_nth pars 0 1%Qc in
  let invindex := nth i (invindexlist G) [] in
  let im1 := psf_call (nth i (xylist G) []) pars in
  (fancy_set_col A invindex i im1, fancy_set use invindex true, guess).

(** [AllFitter.heightfit(trim=True)] *)
Definition heightfit (trim : bool) : M vec :=
  s <~ get ;;
  let '(A, use, guess) :=
    fold_left (heightfit_star (pars s)) (dostars s false)
              (repeat (repeat 0%Qc (nstars G)) (ntotpix G),
               repeat false (ntotpix G), []) in
  let dy := vsub (resflatten s) (skyflatten s) in
  let trimmed := trim && (count_true use <? ntotpix G)%nat in
  let A := if trimmed then keep_rows A use else A in
  let dy := if trimmed then mask_select dy use else dy in
  if negb (Nat.eqb (nstars G) (length guess))
  then raise (ValueError "dimension mismatch")
  else
    dheight <~ lift (lsqr N A (vsub dy (matvec A guess))) ;;
    ret (vadd guess dheight).

(** The second loop of [centroid].  For a star with a free position the
    loop calls [cholesky_jac_solve], a name that [allfit.py] neither defines
    nor imports (the module is imported as [lsq]).  The first loop only
    fills local lists that this call would have used. *)
Definition centroid_star (s : Fitter) (acc : vec * vec) (i : nat)
  : result (vec * vec) :=
  let pars := slice (pars s) (3 * i) 3 in
  let frz := slice (freezepars s) (3 * i) 3 in
  let acc := (fst acc ++ [nth 1 pars 0%Qc], snd acc ++ [nth 2 pars 0%Qc]) in
  if nth 1 frz false && nth 2 frz false then Ok acc
  else Raise (NameError "cholesky_jac_solve").

(** [AllFitter.centroid()] *)
Definition centroid : M (vec * vec) :=
  s <~ get ;;
  lift (foldM (centroid_star s) (dostars s false) ([], [])).

(** [AllFitter.cov()]: the Jacobian and the model of all the stars, the
    weights [1/errflatten**2], and the inverse of the weighted Hessian scaled
    by [chisq/(ntotpix-len(self.pars))]. *)
Definition cov : M mat :=
  s <~ get ;;
  mj <~ jac (pars s) false true ;;
  let mjac := snd mj in
  let wt := diag (map (fun e => (1 / (e * e))%Qc) (errflatten G)) in
  let hess := matmul (transpose mjac) (matmul wt mjac) in
  cov_orig <~ lift (LeastSquares.np_linalg_inv (lsq_backend N) hess) ;;
  s1 <~ get ;;
  bestmodel <~ model (pars s1) false true ;;
  s2 <~ get ;;
  let resid := vsub (vsub (imflatten G) (skyflatten s2)) bestmodel in
  let chisq := vsum (zipw Qcdiv (map sq resid) (map sq (errflatten G))) in
  ret (mscale cov_orig
         (chisq / (qz (Z.of_nat (ntotpix G)) - qz (Z.of_nat (length (pars s2)))))%Qc).

(** [AllFitter.sky()] *)
Definition sky : M unit := modify (fun s => set_sky (resky N s) s).

(** *** [groupfit] *)

(** The local variables of [groupfit] that live across iterations;
    [percdiff] is unbound until it is first assigned. *)
Record Locals := {
  bestpar : vec;
  percdiff : option vec;
  maxpercdiff : Qc
}.

(** [dbeta[0::3] = dh; dbeta[1::3] = dx; dbeta[2::3] = dy] on
    [np.zeros(3*n)]: each right-hand side must have [n] entries. *)
Definition interleave3 (n : nat) (dh dx dy : vec) : result vec :=
  if Nat.eqb (length dh) n && Nat.eqb (length dx) n && Nat.eqb (length dy) n
  then Ok (concat (map (fun i => [nth i dh 0%Qc; nth i dx 0%Qc; nth i dy 0%Qc])
                       (seq 0 n)))
  else Raise (ValueError "could not broadcast input array").

(** The percent change of the parameters: relative for every third entry
    (the heights), absolute for the others.  (Where [oldpar] is zero numpy
    yields [inf] or [nan]; the embedding yields [0].) *)
Definition percent_diff (bestpar oldpar : vec) : vec :=
  let diff := map absq (vsub bestpar oldpar) in
  map (fun k => if Nat.eqb (k mod 3) 0
                then (nth k diff 0 / nth k oldpar 0 * Q2Qc 100)%Qc
                else (nth k diff 0 * Q2Qc 100)%Qc)
      (seq 0 (length diff)).

(** The [htcen] branch of an iteration, up to the new [percdiff]. *)
Definition htcen_step (l : Locals) : M Locals :=
  s <~ get ;;
  newht <~ heightfit true ;;
  let oldht := mask_select (stride_get (pars s) 0 (nstars G)) (freestars s) in
  heights <~ lift (mask_assign (stride_get (pars s) 0 (nstars G)) (freestars s) newht) ;;
  modify (fun s => set_pars (stride_put (pars s) 0 heights) s) ;;;
  xy <~ centroid ;;
  s1 <~ get ;;
  let oldx := mask_select (stride_get (pars s1) 1 (nstars G)) (freestars s1) in
  let oldy := mask_select (stride_get (pars s1) 2 (nstars G)) (freestars s1) in
  xs <~ lift (mask_assign (stride_get (pars s1) 1 (nstars G)) (freestars s1) (fst xy)) ;;
  modify (fun s => set_pars (stride_put (pars s) 1 xs) s) ;;;
  ys <~ lift (mask_assign (stride_get (pars s1) 2 (nstars G)) (freestars s1) (snd xy)) ;;
  modify (fun s => set_pars (stride_put (pars s) 2 ys) s) ;;;
  dbeta <~ lift (interleave3 (nfreestars s1) (vsub oldht newht)
                             (vsub oldx (fst xy)) (vsub oldy (snd xy))) ;;
  let freepars_local :=
    concat (map (fun i => slice (freepars s1) (3 * i) 3) (dostars s1 false))
    ++ repeat false (3 * nstars G - 3 * nfreestars s1) in
  (if negb (Nat.eqb (length freepars_local) (length dbeta))
   then raise IndexError else ret tt) ;;;
  let dbeta := mask_select dbeta freepars_local in
  let oldpar := bestpar l in
  (if negb (Nat.eqb (length oldpar) (length dbeta))
   then raise (ValueError "operands could not be broadcast together") else ret tt) ;;;
  let newpar := vadd oldpar dbeta in
  ret {| bestpar := newpar;
         percdiff := Some (percent_diff newpar oldpar);
         maxpercdiff := maxpercdiff l |}.

(** The Jacobian branch of an iteration (every method but [htcen]): the
    increment is computed and dropped; nothing is assigned to [bestpar] or
    [percdiff]. *)
Definition jacobian_step (method : string) (l : Locals) : M Locals :=
  mj <~ jac (bestpar l) true false ;;
  s <~ get ;;
  let dy := vsub (vsub (mask_select (resflatten s) (usepix s))
                       (mask_select (skyflatten s) (usepix s))) (fst mj) in
  let wt := map (fun e => (1 / (e * e))%Qc) (mask_select (errflatten G) (usepix s)) in
  dbeta <~ lift (LeastSquares.jac_solve (lsq_backend N) (snd mj) dy
                                        (Some method) (Some wt)) ;;
  ret l.

(** Reading the local [percdiff]. *)
Definition read_percdiff (l : Locals) : M vec :=
  match percdiff l with
  | Some v => ret v
  | None => raise (UnboundLocalError "percdiff")
  end.

(** One pass of the [while] loop of [groupfit]. *)
Definition groupfit_pass (method : string) (minpercdiff : Qc) (reskyiter : Z)
    (nofreeze : bool) (l : Locals) : M Locals :=
  l <~ (if negb (String.eqb method "htcen")
        then jacobian_step method l else htcen_step l) ;;
  newpar <~ (if negb nofreeze then
               pd <~ read_percdiff l ;;
               let frzpars := map (fun v => leb v minpercdiff) pd in
               freeze (bestpar l) frzpars
             else
               modify (set_pars (bestpar l)) ;;; ret (bestpar l)) ;;
  pd <~ read_percdiff l ;;
  mx <~ lift (np_max pd) ;;
  s <~ get ;;
  bestmodel <~ model (pars s) false true ;;
  s <~ get ;;
  (if reskyiter =? 0 then raise ZeroDivisionError
   else if niter s mod reskyiter =? 0 then sky else ret tt) ;;;
  modify (fun s => set_niter (niter s + 1) s) ;;;
  ret {| bestpar := newpar; percdiff := percdiff l; maxpercdiff := mx |}.


(** *** The freezing invariant *)

(** The arrays of a fitter have the sizes [__init__] gives them, and a star
    is flagged frozen exactly when its three parameters are: this holds
    after [__init__] and after every method below. *)
Definition wf (s : Fitter) : Prop :=
  length (pars s) = (3 * nstars G)%nat /\
  length (freezepars s) = (3 * nstars G)%nat /\
  length (starniter s) = nstars G /\
  length (resflatten s) = length (ind1 G) /\
  freezestars s = map (all3 (freezepars s)) (seq 0 (nstars G)).







(** A method that touches neither the freezing flags, nor the residual
    buffer, nor the recorded iterations, however it ends. *)
Definition frame (s s' : Fitter) : Prop :=
  freezepars s' = freezepars s /\ freezestars s' = freezestars s /\
  resflatten s' = resflatten s /\ starniter s' = starniter s /\
  length (pars s') = length (pars s).

Definition keeps_frame {A} (m : M A) : Prop :=
  forall s s' r, m s = (s', r) -> frame s s'.



End Methods.

(** *** The driver [fit] *)

(** The methods [fit] lets through. *)
Definition fit_methods : list string :=
  ["cholesky"; "svd"; "qr"; "sparse"; "htcen"; "curve_fit"]%string.

(** [fit(psf,image,cat,method=..)]: the two checks at its head, then the
    fitting proper (grouping, [AllFitter(...)], the loop over the groups),
    here [fitting], which receives the lower-cased method.  [cat_keys] is
    [cat.keys()]. *)
Definition fit {R} (fitting : string -> result R) (cat_keys : list string)
    (method : string) : result R :=
  if negb (forallb (fun n => mem n cat_keys) ["height"; "x"; "y"]%string)
  then Raise (ValueError "Cat must have height, x, and y columns")
  else
    let method := lower method in
    if negb (mem method fit_methods)
    then Raise (ValueError
      "Only cholesky, svd, qr, sparse, htcen or curve_fit methods currently supported")
    else fitting method.

End AllFit.

(* ===================================================================== *)
(** ** forced.py: the single-star solve                                   *)
(* ===================================================================== *)

Module Forced.

Section SolveOne.

Variable B : LeastSquares.Backend.

(** [psf.jac(xdata,*initpar,retmodel=True)] on the pixels of the star's
    box: the model and the Jacobian for [initpar = [amp,xc,yc,sky]]. *)
Variable psf_jac : vec -> vec * mat.



End SolveOne.

End Forced.

(* ===================================================================== *)
(** ** A small group, to run the fitter on explicit inputs                *)
(* ===================================================================== *)

Module Demo.

Import AllFit.

(** A PSF with polynomial profile [h * (4 - (x-xc)^2 - (y-yc)^2)] and its
    derivatives with respect to [h], [xc] and [yc]. *)
Definition psf : PSFModel :=
  {| psf_eval := fun x y pars =>
       let h := nth 0 pars 0%Qc in
       let dx := (qz x - nth 1 pars 0)%Qc in
       let dy := (qz y - nth 2 pars 0)%Qc in
       (h * (Q2Qc 4 - dx * dx - dy * dy))%Qc;
     psf_deriv := fun x y pars =>
       let h := nth 0 pars 0%Qc in
       let dx := (qz x - nth 1 pars 0)%Qc in
       let dy := (qz y - nth 2 pars 0)%Qc in
       ((h * (Q2Qc 4 - dx * dx - dy * dy))%Qc,
        [(Q2Qc 4 - dx * dx - dy * dy)%Qc; (Q2Qc 2 * h * dx)%Qc; (Q2Qc 2 * h * dy)%Qc]) |}.

(** Two stars on a 4 x 4 image, fitted on 2 x 2 pixels each; the full
    footprint of each star reaches one pixel of the other's fitting region. *)
Definition xy : list (list (Z * Z)) :=
  [[(0, 0); (0, 1); (1, 0); (1, 1)]; [(2, 2); (2, 3); (3, 2); (3, 3)]].

Definition fxy : list (list (Z * Z)) :=
  [[(0, 0); (0, 1); (1, 0); (1, 1); (2, 2)]; [(2, 2); (2, 3); (3, 2); (3, 3); (1, 1)]].

Definition group (im : vec) : Group :=
  {| nstars := 2;
     shape := (4, 4);
     xylist := xy;
     fxylist := fxy;
     invindexlist := [[0; 1; 2; 3]; [4; 5; 6; 7]]%nat;
     ind1 := [0; 1; 4; 5; 10; 11; 14; 15];
     ntotpix := 8;
     imflatten := im;
     errflatten := repeat 1%Qc 8 |}.

(** The least-squares solution of [A x = b] through the normal equations,
    for [lsqr]; the sky is left as it is. *)
Definition numerics : Numerics :=
  {| lsq_backend := Exact.backend;
     lsqr := fun A b =>
       Exact.cholesky_factor_solve (matmul (transpose A) A) (matvec (transpose A) b);
     resky := fun s => (skyflatten s, starsky s) |}.

(** The fitter as [__init__] leaves it for catalogue heights 10 and 20. *)
Definition fitter (im sky : vec) : Fitter :=
  {| pars := [Q2Qc 10; Q2Qc (1 # 2); Q2Qc (1 # 2); Q2Qc 20; Q2Qc (5 # 2); Q2Qc (5 # 2)];
     freezepars := repeat false 6;
     freezestars := repeat false 2;
     starniter := [0; 0];
     niter := 0;
     njaciter := 0;
     resflatten := im;
     usepix := repeat false 8;
     skyflatten := sky;
     starsky := [0%Qc; 0%Qc] |}.

Definition initpar : vec := pars (fitter [] []).

Definition locals0 : Locals :=
  {| bestpar := initpar; percdiff := None; maxpercdiff := Q2Qc (10000000000 # 1) |}.

(** An image of the two model stars, and a faint image under a sky estimate
    of 10. *)
Definition bright : vec := [Q2Qc 35; Q2Qc 35; Q2Qc 35; Q2Qc 35;
                            Q2Qc 70; Q2Qc 70; Q2Qc 70; Q2Qc 70].

Definition nosky : vec := repeat 0%Qc 8.

(** The fitter on the bright image, and the same after a call of [freeze]
    that freezes the three parameters of the first star. *)
Definition start : Fitter := fitter bright nosky.

Definition frozen0 : Fitter :=
  fst (freeze (group bright) psf initpar [true; true; true; false; false; false]
              start).

(** A one-parameter [PSFFitter] to run [linesearch] on: the model is the
    parameter itself, the data is the single value [1/2] with unit error,
    so that the chi-square of [p] is [(1/2 - p)^2]. *)
Definition calls : FitPSF.Calls unit :=
  {| FitPSF.fitstars := fun pf _ => Ok pf;
     FitPSF.pf_jac := fun _ pars => Ok (pars, [[1%Qc]]);
     FitPSF.pf_model := fun _ pars => Ok pars;
     FitPSF.starfit_imdata := fun _ => [Q2Qc (1 # 2)];
     FitPSF.starfit_errdata := fun _ => [1%Qc];
     FitPSF.mnb_qr_jac_solve := fun _ dy _ => Ok dy;
     FitPSF.newlsqpars := fun p d => Ok (vadd p d) |}.

End Demo.

(* ===================================================================== *)
(** * Part II: properties                                                 *)
(* ===================================================================== *)

(** ** Rounding *)

Section Rounding.






End Rounding.

(** ** Canonical rationals seen as rationals *)

Section QcFacts.

Lemma this_plus (a b : Qc) : ((a + b)%Qc == a + b)%Q.
Proof. unfold Qcplus, Q2Qc. cbn [this]. apply Qred_correct. Qed.



Lemma this_qz (z : Z) : (qz z == inject_Z z)%Q.
Proof. unfold qz, Q2Qc. cbn [this]. apply Qred_correct. Qed.

Lemma this_Q2Qc (q : Q) : (Q2Qc q == q)%Q.
Proof. unfold Q2Qc. cbn [this]. apply Qred_correct. Qed.



End QcFacts.

(** ** Bounding boxes ([starbbox]) *)

Section BoundingBox.

Import GetPSF.





Example starbbox_example :
  starbbox (Q2Qc (21 # 2), Q2Qc (19 # 2)) (21, 21) (Q2Qc (7 # 2)) = [7; 15; 6; 14].
Proof. vm_compute. reflexivity. Qed.

Example starbbox_corner_example :
  starbbox (0%Qc, Q2Qc 20) (21, 21) (Q2Qc 3) = [0; 4; 17; 21].
Proof. vm_compute. reflexivity. Qed.

End BoundingBox.

(** ** Fixed-size buffers *)

Section Buffers.

Lemma set_nth_length {A} (l : list A) k v : length (set_nth l k v) = length l.
Proof.
  revert k; induction l as [| h t IH]; intros [| k]; simpl; auto.
Qed.






End Buffers.

(** ** Per-star pixel buffers ([getfitstar], [getstar], [collatefitstars]) *)

Section FitStarBuffers.

Import GetPSF.
















Example getfitstar_example :
  npix_of (Q2Qc (3 # 2)) = 5 /\
  fitpixels (21, 21) (Q2Qc 10) (Q2Qc 10) (Q2Qc (3 # 2))
    = [(1, 1); (1, 2); (1, 3); (2, 1); (2, 2); (2, 3); (3, 1); (3, 2); (3, 3)] /\
  match getfitstar flat_image flat_image (21, 21) (Q2Qc 10) (Q2Qc 10) (Q2Qc (3 # 2)) with
  | Ok fs => fs_count fs = 9 /\
             firstn 10 (fs_xdata fs) = [9; 10; 11; 9; 10; 11; 9; 10; 11; -1]
  | Raise _ => False
  end.
Proof. vm_compute. repeat split. Qed.

End FitStarBuffers.

(** ** Distinct sorted values and their inverse index ([np.unique]) *)

Section Unique.

Lemma insert_unique_In v l a : In a (insert_unique v l) <-> a = v \/ In a l.
Proof.
  induction l as [| h t IH]; simpl.
  - intuition.
  - destruct (v <? h) eqn:E1; simpl.
    + intuition.
    + destruct (v =? h) eqn:E2; simpl.
      * apply Z.eqb_eq in E2. subst. intuition.
      * rewrite IH. intuition.
Qed.

Lemma np_unique_In l a : In a (np_unique l) <-> In a l.
Proof.
  induction l as [| h t IH]; simpl; [reflexivity |].
  rewrite insert_unique_In, IH. intuition.
Qed.


Lemma insert_unique_increasing v l :
  increasing l -> increasing (insert_unique v l).
Proof.
  induction l as [| h t IH]; simpl; intros Hinc.
  - split; [intros a [] | exact I].
  - destruct Hinc as [Hh Ht].
    destruct (v <? h) eqn:E1.
    + apply Z.ltb_lt in E1. simpl. split; [| split; assumption].
      intros a [<- | Ha]; [assumption |]. specialize (Hh a Ha). lia.
    + destruct (v =? h) eqn:E2.
      * simpl. split; assumption.
      * apply Z.ltb_ge in E1. apply Z.eqb_neq in E2. simpl. split.
        -- intros a Ha. apply insert_unique_In in Ha.
           destruct Ha as [-> | Ha]; [lia | auto].
        -- auto.
Qed.

Lemma np_unique_increasing l : increasing (np_unique l).
Proof.
  induction l as [| h t IH]; simpl; [exact I |].
  apply insert_unique_increasing. exact IH.
Qed.

Lemma increasing_NoDup l : increasing l -> NoDup l.
Proof.
  induction l as [| h t IH]; simpl; intros Hinc; constructor.
  - intros Hin. destruct Hinc as [Hh _]. specialize (Hh h Hin). lia.
  - apply IH. apply Hinc.
Qed.

Lemma np_unique_NoDup l : NoDup (np_unique l).
Proof. apply increasing_NoDup, np_unique_increasing. Qed.

Lemma index_of_nth v u : In v u -> nth_error u (index_of v u) = Some v.
Proof.
  induction u as [| h t IH]; simpl; [intros [] |].
  intros Hin. destruct (v =? h) eqn:E.
  - apply Z.eqb_eq in E. subst. reflexivity.
  - apply Z.eqb_neq in E. simpl. apply IH.
    destruct Hin as [-> | Hin]; [contradiction | exact Hin].
Qed.

Lemma NoDup_map_on {A B} (f : A -> B) (l : list A) :
  (forall a b, In a l -> In b l -> f a = f b -> a = b) ->
  NoDup l -> NoDup (map f l).
Proof.
  induction l as [| h t IH]; simpl; intros Hinj Hnd; [constructor |].
  inversion Hnd as [| ? ? Hnotin Hnd']; subst. constructor.
  - intros Hin. apply in_map_iff in Hin. destruct Hin as (b & Hfb & Hb).
    assert (b = h) by (apply Hinj; auto). subst. contradiction.
  - apply IH; auto.
Qed.

End Unique.

(** ** The pixel index of a group ([AllFitter.__init__]) *)

Section PixelIndexFacts.

Import PixelIndex.



Lemma ravel_multi_index_ok shape xy :
  Forall (in_shape shape) xy ->
  ravel_multi_index shape xy = Ok (map (flat shape) xy).
Proof.
  unfold ravel_multi_index.
  induction 1 as [| [px py] l [[Hx0 Hx1] [Hy0 Hy1]] _ IH]; [reflexivity |].
  cbn [mapM fst snd] in *.
  apply Z.leb_le in Hx0, Hy0. apply Z.ltb_lt in Hx1, Hy1.
  rewrite Hx0, Hx1, Hy0, Hy1. cbn [andb bind]. rewrite IH. reflexivity.
Qed.

Lemma flat_range shape p :
  in_shape shape p -> 0 <= flat shape p < fst shape * snd shape.
Proof. unfold in_shape, flat. intros [Hx Hy]. nia. Qed.

Lemma flat_div shape p : in_shape shape p -> flat shape p / snd shape = fst p.
Proof.
  unfold in_shape, flat. intros [Hx Hy].
  rewrite Z.div_add_l by lia. rewrite Z.div_small by lia. lia.
Qed.

Lemma flat_mod shape p : in_shape shape p -> flat shape p mod snd shape = snd p.
Proof.
  unfold in_shape, flat. intros [Hx Hy].
  rewrite Z.add_comm, Z.mod_add by lia. apply Z.mod_small. lia.
Qed.

Lemma unravel_index_ok shape ind :
  Forall (fun u => 0 <= u < fst shape * snd shape) ind ->
  unravel_index shape ind =
    Ok (map (fun u => u / snd shape) ind, map (fun u => u mod snd shape) ind).
Proof.
  intros H. unfold unravel_index.
  replace (forallb _ ind) with true; [reflexivity |].
  symmetry. apply forallb_forall. intros u Hu.
  rewrite Forall_forall in H. specialize (H u Hu).
  apply andb_true_iff. split; [apply Z.leb_le | apply Z.ltb_lt]; lia.
Qed.

Lemma combine_fst_snd_concat (foot : list (list (Z * Z))) :
  combine (concat (map (map fst) foot)) (concat (map (map snd) foot)) = concat foot.
Proof.
  induction foot as [| f foot IH]; [reflexivity |].
  cbn [map concat]. rewrite <- IH.
  induction f as [| [a b] f IHf]; [reflexivity |].
  cbn. rewrite IHf. reflexivity.
Qed.

Lemma invindex_slices_concat {A} (g : A -> nat) (foot : list (list A)) :
  forall pre : list nat,
    invindex_slices (pre ++ map g (concat foot)) (length pre)
                    (map (@length A) foot)
    = map (map g) foot.
Proof.
  induction foot as [| f foot IH]; intros pre; [reflexivity |].
  cbn [map concat invindex_slices]. f_equal.
  - unfold slice. rewrite skipn_app, skipn_all, Nat.sub_diag. cbn [app skipn].
    rewrite map_app, firstn_app, length_map, Nat.sub_diag, firstn_O, app_nil_r.
    rewrite <- (length_map g f). apply firstn_all.
  - rewrite map_app, app_assoc.
    specialize (IH (pre ++ map g f)).
    rewrite length_app, length_map in IH. exact IH.
Qed.

Lemma combine_map2 {A B C} (f : A -> B) (g : A -> C) (l : list A) :
  combine (map f l) (map g l) = map (fun a => (f a, g a)) l.
Proof. induction l as [| a l IH]; cbn; [| rewrite IH]; reflexivity. Qed.

Lemma Forall_concat {A} (P : A -> Prop) (ls : list (list A)) :
  Forall (Forall P) ls -> Forall P (concat ls).
Proof.
  induction 1 as [| l ls Hl _ IH]; cbn; [constructor |].
  apply Forall_app. split; assumption.
Qed.

(** C4.  After the pixel index is built, the global pixel array
    [(self.x, self.y)] holds no (x,y) pair twice, it holds exactly the pixels
    of the stars' footprints, and for every star [i] and every pixel [k] of
    its footprint [(xlist[i], ylist[i])], [invindexlist[i][k]] is a position
    of the global array that holds the same coordinates: no footprint pixel
    is left out.  (Footprint pixels lie on the image; [np.ravel_multi_index]
    raises otherwise.) *)
Theorem pixel_index_dedup (shape : Z * Z) (foot : list (list (Z * Z))) :
  Forall (Forall (in_shape shape)) foot ->
  exists pi,
    build shape foot = Ok pi /\
    NoDup (combine (x pi) (y pi)) /\
    length (x pi) = length (y pi) /\
    (forall p, In p (combine (x pi) (y pi)) <-> exists f, In f foot /\ In p f) /\
    (forall i f k p,
        nth_error foot i = Some f -> nth_error f k = Some p ->
        exists g,
          nth_error (nth i (invindexlist pi) []) k = Some g /\
          nth_error (x pi) g = Some (fst p) /\
          nth_error (y pi) g = Some (snd p)).
Proof.
  intros Hfoot.
  pose proof (Forall_concat Hfoot) as Hall.
  unfold build. rewrite combine_fst_snd_concat.
  rewrite (ravel_multi_index_ok Hall). cbn [bind].
  unfold np_unique_inverse.
  set (ind := map (flat shape) (concat foot)).
  set (u := np_unique ind).
  assert (Hu : forall v, In v u -> exists q, In q (concat foot) /\ in_shape shape q
                                           /\ v = flat shape q).
  { intros v Hv. unfold u in Hv. apply -> np_unique_In in Hv. apply in_map_iff in Hv.
    destruct Hv as (q & <- & Hq). exists q. split; [exact Hq |].
    split; [| reflexivity]. rewrite Forall_forall in Hall. apply Hall, Hq. }
  rewrite unravel_index_ok.
  2:{ apply Forall_forall. intros v Hv. destruct (Hu v Hv) as (q & _ & Hq & ->).
      apply flat_range, Hq. }
  cbn [bind fst snd]. eexists. split; [reflexivity |].
  cbn [x y invindexlist].
  rewrite combine_map2. repeat split.
  - apply NoDup_map_on; [| apply np_unique_NoDup].
    intros a b Ha Hb Heq.
    destruct (Hu a Ha) as (qa & _ & Hqa & ->).
    destruct (Hu b Hb) as (qb & _ & Hqb & ->).
    rewrite !flat_div, !flat_mod in Heq by assumption.
    injection Heq as H1 H2. unfold flat. congruence.
  - rewrite !length_map. reflexivity.
  - intros Hp. apply in_map_iff in Hp. destruct Hp as (v & <- & Hv).
    destruct (Hu v Hv) as (q & Hq & Hsh & ->).
    rewrite flat_div, flat_mod by assumption.
    apply in_concat in Hq. destruct Hq as (f & Hf & Hqf).
    exists f. split; [exact Hf |]. destruct q; exact Hqf.
  - intros (f & Hf & Hpf).
    assert (Hq : In p (concat foot)) by (apply in_concat; eauto).
    assert (Hsh : in_shape shape p) by (rewrite Forall_forall in Hall; auto).
    apply in_map_iff. exists (flat shape p). split.
    + rewrite flat_div, flat_mod by assumption. destruct p; reflexivity.
    + apply np_unique_In. apply in_map. exact Hq.
  - intros i f k p Hi Hk.
    assert (Hq : In p (concat foot)).
    { apply in_concat. exists f. split; eapply nth_error_In; eauto. }
    assert (Hsh : in_shape shape p) by (rewrite Forall_forall in Hall; auto).
    assert (Hin : In (flat shape p) u) by (apply np_unique_In, in_map, Hq).
    unfold ind. rewrite map_map, !map_map.
    pose proof (@invindex_slices_concat _
                  (fun q => index_of (flat shape q) u) foot []) as Hs.
    cbn [app length] in Hs.
    replace (map (fun x0 : list (Z * Z) => length (map fst x0)) foot)
      with (map (@length (Z * Z)) foot)
      by (apply map_ext; intros; rewrite length_map; reflexivity).
    rewrite Hs.
    exists (index_of (flat shape p) u). repeat split.
    + erewrite nth_error_nth by (apply map_nth_error; exact Hi).
      exact (map_nth_error (fun q => index_of (flat shape q) u) k f Hk).
    + rewrite (map_nth_error (fun v => v / snd shape) _ _ (index_of_nth _ _ Hin)).
      rewrite flat_div by assumption. reflexivity.
    + rewrite (map_nth_error (fun v => v mod snd shape) _ _ (index_of_nth _ _ Hin)).
      rewrite flat_mod by assumption. reflexivity.
Qed.

Lemma pixel_index_dedup_witness :
  exists pi,
    build (5, 4) [[(1, 1); (1, 2); (2, 1)]; [(2, 1); (1, 2); (3, 3)]] = Ok pi /\
    NoDup (combine (x pi) (y pi)) /\
    length (x pi) = length (y pi) /\
    (forall p, In p (combine (x pi) (y pi)) <->
       exists f, In f [[(1, 1); (1, 2); (2, 1)]; [(2, 1); (1, 2); (3, 3)]] /\ In p f) /\
    (forall i f k p,
        nth_error [[(1, 1); (1, 2); (2, 1)]; [(2, 1); (1, 2); (3, 3)]] i = Some f ->
        nth_error f k = Some p ->
        exists g,
          nth_error (nth i (invindexlist pi) []) k = Some g /\
          nth_error (x pi) g = Some (fst p) /\
          nth_error (y pi) g = Some (snd p)).
Proof.
  apply (@pixel_index_dedup (5, 4) [[(1, 1); (1, 2); (2, 1)]; [(2, 1); (1, 2); (3, 3)]]).
  repeat constructor; cbn; lia.
Defined.

Example pixel_index_example :
  build (5, 4) [[(1, 1); (1, 2); (2, 1)]; [(2, 1); (1, 2); (3, 3)]]
  = Ok {| ntotpix := 4;
          ind1 := [5; 6; 9; 15];
          x := [1; 1; 2; 3];
          y := [1; 2; 1; 3];
          invindex := [0; 1; 2; 2; 1; 3]%nat;
          invindexlist := [[0; 1; 2]; [2; 1; 3]]%nat |}.
Proof. vm_compute. reflexivity. Qed.

End PixelIndexFacts.

(** ** Sums, products and diagonal matrices *)

Section LinearAlgebra.

Lemma zipw_length {A B C} (f : A -> B -> C) a b :
  length (zipw f a b) = Nat.min (length a) (length b).
Proof.
  revert b; induction a as [| x a IH]; intros [| y b]; simpl; auto.
Qed.

Lemma col_length k (M : mat) : length (col k M) = length M.
Proof. apply length_map. Qed.

Lemma nth_map_mul (row : vec) (k : nat) (w : Qc) :
  nth k (map (fun a => (a * w)%Qc) row) 0%Qc = (nth k row 0 * w)%Qc.
Proof.
  revert k; induction row as [| a row IH]; intros [| k]; cbn; auto; ring.
Qed.

Lemma col_scale_rows k (J : mat) (w : vec) :
  col k (scale_rows J w) = vmul (col k J) w.
Proof.
  revert w; induction J as [| row J IH]; intros [| wi w]; cbn; try reflexivity.
  rewrite nth_map_mul. f_equal. apply IH.
Qed.

Lemma dot_cons x a y b : dot (x :: a) (y :: b) = (x * y + dot a b)%Qc.
Proof. reflexivity. Qed.

Lemma dot_comm (a b : vec) : dot a b = dot b a.
Proof.
  revert b; induction a as [| x a IH]; intros [| y b]; try reflexivity.
  rewrite !dot_cons, IH. ring.
Qed.

(** Scaling both factors of a product by [w] is weighting it by [w*w]. *)
Lemma dot_vmul_both (a b w : vec) :
  dot (vmul a w) (vmul b w) = dot a (vmul (vmul w w) b).
Proof.
  revert b w; induction a as [| x a IH]; intros [| y b] [| z w];
    try reflexivity.
  cbn [vmul zipw]. rewrite !dot_cons. fold (vmul a w) (vmul b w) (vmul w w).
  fold (vmul (vmul w w) b). rewrite IH. ring.
Qed.

(** A row of a diagonal matrix picks one entry of a vector. *)
Lemma dot_diag_row (x : Qc) (i : nat) (c : vec) : forall s,
  dot (map (fun j => if Nat.eqb i j then x else 0%Qc) (seq s (length c))) c
  = if (s <=? i)%nat && (i <? s + length c)%nat then (x * nth (i - s) c 0)%Qc
    else 0%Qc.
Proof.
  induction c as [| y c IH]; intros s.
  - cbn [length seq map]. rewrite Nat.add_0_r.
    destruct (s <=? i)%nat eqn:E1; destruct (i <? s)%nat eqn:E2;
      try reflexivity.
    apply Nat.leb_le in E1. apply Nat.ltb_lt in E2. lia.
  - cbn [length seq map]. rewrite dot_cons, IH.
    destruct (Nat.eqb i s) eqn:Eis.
    + apply Nat.eqb_eq in Eis. subst s.
      replace (S i <=? i)%nat with false by (symmetry; apply Nat.leb_gt; lia).
      replace (i <=? i)%nat with true by (symmetry; apply Nat.leb_le; lia).
      replace (i <? i + S (length c))%nat with true
        by (symmetry; apply Nat.ltb_lt; lia).
      rewrite Nat.sub_diag. cbn. ring.
    + apply Nat.eqb_neq in Eis.
      destruct (s <=? i)%nat eqn:E1.
      * apply Nat.leb_le in E1.
        replace (S s <=? i)%nat with true by (symmetry; apply Nat.leb_le; lia).
        replace (i <? S s + length c)%nat with (i <? s + S (length c))%nat
          by (f_equal; lia).
        cbn [andb].
        destruct (i <? s + S (length c))%nat; [| ring].
        replace (i - s)%nat with (S (i - S s)) by lia. cbn [nth]. ring.
      * apply Nat.leb_gt in E1.
        replace (S s <=? i)%nat with false by (symmetry; apply Nat.leb_gt; lia).
        cbn [andb]. ring.
Qed.

Lemma dot_diag (w c : vec) (i : nat) :
  length c = length w -> (i < length w)%nat ->
  dot (map (fun j => if Nat.eqb i j then nth i w 0%Qc else 0%Qc)
           (seq 0 (length w))) c
  = (nth i w 0 * nth i c 0)%Qc.
Proof.
  intros Hlen Hi. rewrite <- Hlen. rewrite dot_diag_row.
  cbn [Nat.leb]. replace (i <? 0 + length c)%nat with true
    by (symmetry; apply Nat.ltb_lt; lia).
  rewrite Nat.sub_0_r. reflexivity.
Qed.

Lemma vmul_as_map (a b : vec) :
  length a = length b ->
  vmul a b = map (fun i => (nth i a 0 * nth i b 0)%Qc) (seq 0 (length a)).
Proof.
  revert b; induction a as [| x a IH]; intros [| y b] Hlen;
    try discriminate; [reflexivity |].
  cbn [vmul zipw length seq map nth]. f_equal.
  rewrite <- seq_shift, map_map. cbn [nth]. apply IH.
  injection Hlen as Hlen. exact Hlen.
Qed.

(** [np.diag(w) @ v] scales [v] entry by entry. *)
Lemma matvec_diag (w v : vec) :
  length v = length w -> matvec (diag w) v = vmul w v.
Proof.
  intros Hlen. unfold matvec, diag. rewrite map_map.
  rewrite vmul_as_map by congruence.
  apply map_ext_in. intros i Hi. apply in_seq in Hi.
  apply dot_diag; [assumption | lia].
Qed.

Lemma matmul_diag_row (w : vec) (J : mat) :
  length J = length w ->
  matmul (diag w) J
  = map (fun i => map (fun k => (nth i w 0 * nth i (col k J) 0)%Qc)
                      (seq 0 (ncols J)))
        (seq 0 (length w)).
Proof.
  intros Hlen. unfold matmul, diag. rewrite map_map.
  apply map_ext_in. intros i Hi. apply in_seq in Hi.
  apply map_ext. intros k. apply dot_diag; [| lia].
  rewrite col_length. exact Hlen.
Qed.

Lemma matmul_transpose (X Y : mat) :
  matmul (transpose X) Y
  = map (fun a => map (fun b => dot (col a X) (col b Y)) (seq 0 (ncols Y)))
        (seq 0 (ncols X)).
Proof. unfold matmul, transpose. rewrite map_map. reflexivity. Qed.

Lemma matvec_transpose (X : mat) (v : vec) :
  matvec (transpose X) v = map (fun a => dot (col a X) v) (seq 0 (ncols X)).
Proof. unfold matvec, transpose. rewrite map_map. reflexivity. Qed.

Lemma ncols_scale_rows (J : mat) (w : vec) :
  length w = length J -> ncols (scale_rows J w) = ncols J.
Proof.
  destruct J as [| row J], w as [| wi w]; try discriminate; intros _;
    [reflexivity |].
  unfold ncols. cbn. apply length_map.
Qed.

Lemma nth_map_seq {A} (h : nat -> A) (n k : nat) (d : A) :
  (k < n)%nat -> nth k (map h (seq 0 n)) d = h k.
Proof.
  intros Hk. rewrite (nth_indep _ d (h 0%nat)) by (rewrite length_map, length_seq; exact Hk).
  rewrite (map_nth h (seq 0 n) 0%nat k). rewrite seq_nth by exact Hk. reflexivity.
Qed.

Lemma ncols_matmul_diag (w : vec) (J : mat) :
  length J = length w -> ncols (matmul (diag w) J) = ncols J.
Proof.
  intros Hlen. rewrite matmul_diag_row by exact Hlen.
  destruct w as [| wi w].
  - destruct J; [reflexivity | discriminate].
  - unfold ncols at 1. cbn [length seq map hd]. rewrite length_map, length_seq.
    reflexivity.
Qed.

Lemma col_matmul_diag (w : vec) (J : mat) (k : nat) :
  length J = length w -> (k < ncols J)%nat ->
  col k (matmul (diag w) J) = vmul w (col k J).
Proof.
  intros Hlen Hk. rewrite matmul_diag_row by exact Hlen.
  unfold col at 1. rewrite map_map.
  rewrite vmul_as_map by (rewrite col_length; congruence).
  apply map_ext. intros i.
  apply (nth_map_seq (fun k0 => (nth i w 0 * nth i (col k0 J) 0)%Qc)). exact Hk.
Qed.

(** The normal matrix and right-hand side that the Cholesky solvers form
    from the scaled arrays are those of the weight matrix [diag(w*w)]. *)
Lemma scaled_normal_matrix (J : mat) (w : vec) :
  length w = length J ->
  matmul (transpose (scale_rows J w)) (scale_rows J w)
  = LeastSquares.normal_matrix J (diag (vmul w w)).
Proof.
  intros Hlen. unfold LeastSquares.normal_matrix.
  assert (Hww : length J = length (vmul w w)).
  { unfold vmul. rewrite zipw_length. lia. }
  rewrite !matmul_transpose, ncols_scale_rows, ncols_matmul_diag by assumption.
  apply map_ext. intros a. apply map_ext_in. intros b Hb. apply in_seq in Hb.
  rewrite !col_scale_rows, col_matmul_diag by (assumption || lia).
  apply dot_vmul_both.
Qed.

Lemma scaled_normal_rhs (J : mat) (r w : vec) :
  length w = length J -> length r = length J ->
  matvec (transpose (scale_rows J w)) (vmul r w)
  = LeastSquares.normal_rhs J (diag (vmul w w)) r.
Proof.
  intros Hlen Hr. unfold LeastSquares.normal_rhs.
  assert (Hww : length r = length (vmul w w)).
  { unfold vmul. rewrite zipw_length. lia. }
  rewrite !matvec_transpose, ncols_scale_rows, matvec_diag by assumption.
  apply map_ext. intros a.
  rewrite col_scale_rows. apply dot_vmul_both.
Qed.

End LinearAlgebra.


(** ** The solvers of [leastsquares.py] *)

Section LeastSquaresFacts.

Import LeastSquares.

Lemma vec_eq_show (a b : vec) : Exact.show a = Exact.show b -> a = b.
Proof.
  revert b; induction a as [| x a IH]; intros [| y b] H; try discriminate;
    [reflexivity |].
  injection H as Hxy Hab. f_equal; [apply Qc_decomp; exact Hxy | auto].
Qed.





(** The chi-square of [jac_covariance], a sum over the [Npix x Npix] product
    of the squared residuals with [np.diag(wt)], is [sum_i w_i * r_i^2]. *)
Lemma chisq_broadcast (r w : vec) :
  length r = length w ->
  msum (bcast_mul (map sq r) (diag w)) = chisq_weighted w r.
Proof.
  intros Hlen. unfold msum, bcast_mul, diag, chisq_weighted.
  rewrite !map_map.
  transitivity (vsum (vmul w (map sq r))).
  - rewrite (vmul_as_map w (map sq r)) by (rewrite length_map; congruence).
    f_equal. apply map_ext_in. intros i Hi. apply in_seq in Hi.
    change (vsum (vmul ?a ?b)) with (dot a b). rewrite dot_comm.
    apply dot_diag; [rewrite length_map; exact Hlen | lia].
  - f_equal. clear Hlen. revert r.
    induction w as [| wi w IH]; intros [| ri r]; try reflexivity.
    cbn. unfold vmul in IH. rewrite IH. reflexivity.
Qed.

Lemma vmul_ones (c : vec) : vmul (repeat 1%Qc (length c)) c = c.
Proof.
  induction c as [| x c IH]; [reflexivity |].
  cbn. unfold vmul in IH. rewrite IH. f_equal. ring.
Qed.

Lemma normal_matrix_identity (J : mat) :
  normal_matrix J (diag (repeat 1%Qc (length J))) = matmul (transpose J) J.
Proof.
  unfold normal_matrix.
  assert (Hlen : length J = length (repeat 1%Qc (length J)))
    by (rewrite repeat_length; reflexivity).
  rewrite !matmul_transpose, ncols_matmul_diag by exact Hlen.
  apply map_ext. intros a. apply map_ext_in. intros b Hb. apply in_seq in Hb.
  rewrite col_matmul_diag by (exact Hlen || lia).
  rewrite <- (col_length b J) at 1. rewrite vmul_ones. reflexivity.
Qed.

Lemma chisq_unweighted (r : vec) :
  vsum (map sq r) = chisq_weighted (repeat 1%Qc (length r)) r.
Proof.
  unfold chisq_weighted. f_equal.
  induction r as [| x r IH]; [reflexivity |].
  cbn. rewrite IH. f_equal. unfold sq. ring.
Qed.

(** C6.  For a Jacobian [J] with [Npix] rows and [Npar] columns, a residual
    [r] and a weight vector [w], [jac_covariance] returns the inverse of
    [J^T W J], [W = diag(w)], scaled by [chisq/(Npix - Npar)] with
    [chisq = sum_i w_i * r_i^2]; without weights it is the same with [W = I]
    and [chisq = sum_i r_i^2].  It raises exactly when the inversion does. *)
Theorem jac_covariance_formula (B : Backend) (J : mat) (r w : vec) :
  length r = length w -> length r = length J ->
  let dof := (qz (Z.of_nat (length J)) - qz (Z.of_nat (ncols J)))%Qc in
  let ones := repeat 1%Qc (length J) in
  jac_covariance B J r (Some w)
    = (Hinv <- np_linalg_inv B (normal_matrix J (diag w)) ;;
       Ok (mscale Hinv (chisq_weighted w r / dof)%Qc)) /\
  jac_covariance B J r None
    = (Hinv <- np_linalg_inv B (normal_matrix J (diag ones)) ;;
       Ok (mscale Hinv (chisq_weighted ones r / dof)%Qc)) /\
  chisq_weighted ones r = vsum (map sq r).
Proof.
  intros Hw HJ dof ones. unfold jac_covariance. cbn [option_map].
  rewrite chisq_broadcast by exact Hw.
  subst ones. rewrite normal_matrix_identity.
  rewrite (chisq_unweighted r), HJ.
  repeat split; reflexivity.
Qed.

Lemma jac_covariance_formula_witness :
  let J := [[Q2Qc 1]; [Q2Qc 1]; [Q2Qc 1]] in
  let r := [Q2Qc 1; Q2Qc 0; Q2Qc 2] in
  let w := [Q2Qc 3; Q2Qc 4; Q2Qc 1] in
  let dof := (qz (Z.of_nat (length J)) - qz (Z.of_nat (ncols J)))%Qc in
  let ones := repeat 1%Qc (length J) in
  jac_covariance Exact.backend J r (Some w)
    = (Hinv <- np_linalg_inv Exact.backend (normal_matrix J (diag w)) ;;
       Ok (mscale Hinv (chisq_weighted w r / dof)%Qc)) /\
  jac_covariance Exact.backend J r None
    = (Hinv <- np_linalg_inv Exact.backend (normal_matrix J (diag ones)) ;;
       Ok (mscale Hinv (chisq_weighted ones r / dof)%Qc)) /\
  chisq_weighted ones r = vsum (map sq r).
Proof.
  apply (@jac_covariance_formula Exact.backend
           [[Q2Qc 1]; [Q2Qc 1]; [Q2Qc 1]] [Q2Qc 1; Q2Qc 0; Q2Qc 2]
           [Q2Qc 3; Q2Qc 4; Q2Qc 1]); reflexivity.
Defined.

Example jac_covariance_example :
  match jac_covariance Exact.backend [[Q2Qc 1]; [Q2Qc 1]; [Q2Qc 1]]
          [Q2Qc 1; Q2Qc 0; Q2Qc 2] (Some [Q2Qc 3; Q2Qc 4; Q2Qc 1]) with
  | Ok cov => map Exact.show cov = [[7 # 16]]
  | Raise _ => False
  end.
Proof. vm_compute. reflexivity. Qed.

End LeastSquaresFacts.

(** ** The iterations of [groupfit] *)

Section GroupFitFacts.

Import AllFit.

Variable G : Group.
Variable P : PSFModel.
Variable N : Numerics.

Lemma bindM_ok {A B} (m : M A) (k : A -> M B) s s' b :
  bindM m k s = (s', Ok b) ->
  exists s1 a, m s = (s1, Ok a) /\ k a s1 = (s', Ok b).
Proof.
  unfold bindM. destruct (m s) as [s1 [a | e]]; intros H.
  - exists s1, a. split; [reflexivity | exact H].
  - discriminate.
Qed.

(** The Jacobian branch hands back the locals it was given: [bestpar] is
    not updated and [percdiff] is not assigned. *)
Lemma jacobian_step_locals method l s s' l' :
  jacobian_step G P N method l s = (s', Ok l') -> l' = l.
Proof.
  unfold jacobian_step. intros H.
  apply bindM_ok in H. destruct H as (s1 & mj & _ & H).
  apply bindM_ok in H. destruct H as (s2 & s2' & _ & H).
  apply bindM_ok in H. destruct H as (s3 & dbeta & _ & H).
  unfold ret in H. congruence.
Qed.

Lemma read_percdiff_unbound l s :
  percdiff l = None ->
  read_percdiff l s = (s, Raise (UnboundLocalError "percdiff")).
Proof. unfold read_percdiff. intros ->. reflexivity. Qed.

(** C2, at the point where the code departs from it.  What a pass of
    [groupfit] does for the methods [qr], [svd], [cholesky] and [sparse]
    (any method but [htcen]) while [percdiff] is unbound, as it is when the
    loop is entered: the pass ends in an exception, and if the
    Jacobian and the solver succeed the exception is the unbound local
    [percdiff]; no percent change is computed. *)
Theorem groupfit_pass_jacobian_raises method minpercdiff reskyiter nofreeze l s :
  method <> "htcen"%string -> percdiff l = None ->
  exists s' e,
    groupfit_pass G P N method minpercdiff reskyiter nofreeze l s = (s', Raise e) /\
    (forall s1 l1, jacobian_step G P N method l s = (s1, Ok l1) ->
                   e = UnboundLocalError "percdiff").
Proof.
  intros Hm Hpd. unfold groupfit_pass.
  apply String.eqb_neq in Hm. rewrite Hm. cbn [negb].
  unfold bindM at 1.
  destruct (jacobian_step G P N method l s) as [s1 [l1 | e]] eqn:Hstep.
  - apply jacobian_step_locals in Hstep. subst l1.
    destruct nofreeze; cbn [negb].
    + unfold bindM, modify, ret. rewrite read_percdiff_unbound by exact Hpd.
      eexists _, _. split; [reflexivity |]. intros; reflexivity.
    + unfold bindM. rewrite read_percdiff_unbound by exact Hpd.
      eexists _, _. split; [reflexivity |]. intros; reflexivity.
  - exists s1, e. split; [reflexivity |]. intros ? ? H. discriminate.
Qed.

End GroupFitFacts.

Section GroupFitRun.

Import AllFit.

Lemma groupfit_pass_jacobian_raises_witness :
  exists s' e,
    groupfit_pass (Demo.group Demo.bright) Demo.psf Demo.numerics "qr"
      (Q2Qc (1 # 2)) 2 false Demo.locals0 (Demo.fitter Demo.bright Demo.nosky)
      = (s', Raise e) /\
    (forall s1 l1,
        jacobian_step (Demo.group Demo.bright) Demo.psf Demo.numerics "qr"
          Demo.locals0 (Demo.fitter Demo.bright Demo.nosky) = (s1, Ok l1) ->
        e = UnboundLocalError "percdiff").
Proof.
  apply (@groupfit_pass_jacobian_raises (Demo.group Demo.bright) Demo.psf
           Demo.numerics "qr" (Q2Qc (1 # 2)) 2 false Demo.locals0
           (Demo.fitter Demo.bright Demo.nosky)).
  - discriminate.
  - reflexivity.
Defined.

(** The default call [groupfit(cat)] ([method='qr']) on the two-star group:
    the Jacobian is built and solved, then the first pass stops at the
    unbound [percdiff]; so does the [cholesky] method, also with
    [nofreeze=True].  The parameters are those of the catalogue. *)
Example groupfit_first_pass_stops :
  snd (groupfit_pass (Demo.group Demo.bright) Demo.psf Demo.numerics "qr"
         (Q2Qc (1 # 2)) 2 false Demo.locals0 (Demo.fitter Demo.bright Demo.nosky))
    = Raise (UnboundLocalError "percdiff") /\
  snd (groupfit_pass (Demo.group Demo.bright) Demo.psf Demo.numerics "cholesky"
         (Q2Qc (1 # 2)) 2 true Demo.locals0 (Demo.fitter Demo.bright Demo.nosky))
    = Raise (UnboundLocalError "percdiff") /\
  is_ok (snd (jacobian_step (Demo.group Demo.bright) Demo.psf Demo.numerics "qr"
                Demo.locals0 (Demo.fitter Demo.bright Demo.nosky))) = true /\
  Exact.show (pars (fst (groupfit_pass (Demo.group Demo.bright) Demo.psf
                           Demo.numerics "qr" (Q2Qc (1 # 2)) 2 false Demo.locals0
                           (Demo.fitter Demo.bright Demo.nosky))))
    = Exact.show Demo.initpar.
Proof. repeat split; vm_compute; reflexivity. Qed.

End GroupFitRun.

(** ** The iteration counter *)

Section IterationCounter.

Import AllFit.

Variable G : Group.
Variable P : PSFModel.
Variable N : Numerics.




















End IterationCounter.

(** ** Termination of the fitting loops *)

Section Loops.

Import AllFit.

Lemma ltb_lt (a b : Qc) : ltb a b = true <-> (a < b)%Qc.
Proof.
  unfold ltb, Qclt. rewrite negb_true_iff.
  split.
  - intros H. apply Qnot_le_lt. intros Hle.
    apply Qle_bool_iff in Hle. congruence.
  - intros H. destruct (Qle_bool b a) eqn:E; [| reflexivity].
    apply Qle_bool_iff in E. exfalso. apply (Qlt_not_le _ _ H E).
Qed.

Variable G : Group.
Variable P : PSFModel.
Variable N : Numerics.



Variable PF : Type.
Variable C : FitPSF.Calls PF.






End Loops.

(** ** The checks of [fit] and [jac_solve] *)

Section Configuration.

Import AllFit.

Lemma mem_In name names : mem name names = true <-> In name names.
Proof.
  unfold mem. rewrite existsb_exists. split.
  - intros (x & Hx & E). apply String.eqb_eq in E. subst. exact Hx.
  - intros H. exists name. split; [exact H | apply String.eqb_refl].
Qed.

(** C7, as the code has it.  [fit] lower-cases the method and raises a
    [ValueError] before any fitting starts unless it is one of [cholesky],
    [svd], [qr], [sparse], [htcen] or [curve_fit]; each of these six is let
    through, in any letter case, to the fitting.  A catalogue that lacks one
    of the columns [height], [x], [y] is rejected first, whatever the method.
    [jac_solve] rejects every method name but [qr], [svd], [cholesky] and
    [sparse] without calling a solver. *)
Theorem fit_checks_configuration {R} (fitting : string -> result R)
    (cat_keys : list string) (method : string) :
  ((~ In "height"%string cat_keys \/ ~ In "x"%string cat_keys
    \/ ~ In "y"%string cat_keys) ->
   fit fitting cat_keys method
     = Raise (ValueError "Cat must have height, x, and y columns")) /\
  (In "height"%string cat_keys -> In "x"%string cat_keys -> In "y"%string cat_keys ->
   (~ In (lower method) fit_methods ->
    fit fitting cat_keys method = Raise (ValueError
      "Only cholesky, svd, qr, sparse, htcen or curve_fit methods currently supported")) /\
   (In (lower method) fit_methods ->
    fit fitting cat_keys method = fitting (lower method))) /\
  (forall B J r w,
     ~ In method ["qr"; "svd"; "cholesky"; "sparse"]%string ->
     LeastSquares.jac_solve B J r (Some method) w
       = Raise (ValueError (method ++ " not supported"))).
Proof.
  split; [| split].
  - intros H. unfold fit. cbn [forallb].
    destruct (mem "height" cat_keys) eqn:E1;
      destruct (mem "x" cat_keys) eqn:E2;
      destruct (mem "y" cat_keys) eqn:E3; try reflexivity.
    apply mem_In in E1, E2, E3. tauto.
  - intros Hh Hx Hy. unfold fit. cbn [forallb].
    apply mem_In in Hh, Hx, Hy. rewrite Hh, Hx, Hy. cbn [andb negb].
    split; intros Hm.
    + destruct (mem (lower method) fit_methods) eqn:E; [| reflexivity].
      apply mem_In in E. contradiction.
    + apply mem_In in Hm. rewrite Hm. reflexivity.
  - intros B J r w Hm. unfold LeastSquares.jac_solve.
    destruct (String.eqb method "qr") eqn:E1;
      [apply String.eqb_eq in E1; subst; exfalso; apply Hm; cbn; tauto |].
    destruct (String.eqb method "svd") eqn:E2;
      [apply String.eqb_eq in E2; subst; exfalso; apply Hm; cbn; tauto |].
    destruct (String.eqb method "cholesky") eqn:E3;
      [apply String.eqb_eq in E3; subst; exfalso; apply Hm; cbn; tauto |].
    destruct (String.eqb method "sparse") eqn:E4;
      [apply String.eqb_eq in E4; subst; exfalso; apply Hm; cbn; tauto |].
    reflexivity.
Qed.

(** C7 fails as stated.  With the three columns present, the method name
    [sparse-cholesky] of the configuration set is rejected (the code knows
    this solver as [sparse]), while [curve_fit], which is outside that set,
    is let through to the fitting. *)
Lemma fit_method_names_counterexample :
  fit (fun m => Ok m) ["id"; "height"; "x"; "y"]%string "sparse-cholesky"
    = Raise (ValueError
        "Only cholesky, svd, qr, sparse, htcen or curve_fit methods currently supported") /\
  fit (fun m => Ok m) ["id"; "height"; "x"; "y"]%string "curve_fit"
    = Ok "curve_fit"%string /\
  fit (fun m => Ok m) ["id"; "height"; "x"; "y"]%string "sparse"
    = Ok "sparse"%string.
Proof. repeat split. Qed.

Lemma fit_checks_configuration_witness :
  fit (fun m => Ok m) ["height"; "x"]%string "qr"
    = Raise (ValueError "Cat must have height, x, and y columns") /\
  fit (fun m => Ok m) ["height"; "x"; "y"]%string "QR" = Ok (lower "QR") /\
  fit (fun m => Ok m) ["height"; "x"; "y"]%string "lm"
    = Raise (ValueError
        "Only cholesky, svd, qr, sparse, htcen or curve_fit methods currently supported") /\
  LeastSquares.jac_solve Exact.backend Exact.J0 Exact.r0 (Some "htcen"%string) None
    = Raise (ValueError ("htcen" ++ " not supported")).
Proof.
  split; [| split; [| split]].
  - apply (proj1 (@fit_checks_configuration string (fun m => Ok m)
                    ["height"; "x"]%string "qr")).
    right; right. cbn. intros [H | [H | []]]; discriminate.
  - apply (proj1 (proj2 (@fit_checks_configuration string (fun m => Ok m)
                           ["height"; "x"; "y"]%string "QR")));
      cbn; tauto.
  - apply (proj1 (proj2 (@fit_checks_configuration string (fun m => Ok m)
                           ["height"; "x"; "y"]%string "lm")));
      try (cbn; tauto).
    cbn. intros H. repeat (destruct H as [H | H]; [discriminate |]). exact H.
  - apply (proj2 (proj2 (@fit_checks_configuration string (fun m => Ok m)
                           [] "htcen"))).
    cbn. intros H. repeat (destruct H as [H | H]; [discriminate |]). exact H.
Defined.

Example fit_accepts_upper_case :
  fit (fun m => Ok m) ["height"; "x"; "y"]%string "QR" = Ok "qr"%string.
Proof. reflexivity. Qed.

Example fit_rejects_missing_column :
  fit (fun m => Ok m) ["height"; "x"]%string "qr"
    = Raise (ValueError "Cat must have height, x, and y columns").
Proof. reflexivity. Qed.

End Configuration.

(** ** Amplitudes after an update *)

Section Amplitude.

Import AllFit.

Lemma maximum_ge_r (a b : Qc) : (b <= maximum a b)%Qc.
Proof.
  unfold maximum, leb. destruct (Qle_bool a b) eqn:E.
  - apply Qcle_refl.
  - unfold Qcle. destruct (Qlt_le_dec b a) as [H | H].
    + apply Qlt_le_weak, H.
    + apply Qle_bool_iff in H. congruence.
Qed.





End Amplitude.

(** ** Masks and index lists *)

Section Masks.

Import AllFit.

Lemma mask_fill_length {A} (a : list A) mask vals :
  length (mask_fill a mask vals) = length a.
Proof.
  revert mask vals; induction a as [| x a IH]; intros [| [|] mask] vals;
    cbn; try reflexivity.
  - destruct vals; cbn; rewrite IH; reflexivity.
  - rewrite IH. reflexivity.
Qed.

(** Positions that the mask does not select keep their value. *)
Lemma mask_fill_keep {A} (a : list A) mask vals k d :
  nth k mask false = false -> nth k (mask_fill a mask vals) d = nth k a d.
Proof.
  revert mask vals k; induction a as [| x a IH]; intros [| [|] mask] vals k Hk;
    try reflexivity.
  - destruct k as [| k]; [discriminate |]. cbn in Hk.
    destruct vals; cbn; apply IH; exact Hk.
  - destruct k as [| k]; [reflexivity |]. cbn in Hk. cbn. apply IH. exact Hk.
Qed.

Lemma mask_fill_idem {A} (a : list A) mask vals :
  mask_fill (mask_fill a mask vals) mask vals = mask_fill a mask vals.
Proof.
  revert mask vals; induction a as [| x a IH]; intros [| [|] mask] vals;
    cbn; try reflexivity.
  - destruct vals; cbn; rewrite IH; reflexivity.
  - rewrite IH. reflexivity.
Qed.

Lemma mask_assign_ok {A} (a : list A) mask vals a' :
  mask_assign a mask vals = Ok a' ->
  length a' = length a /\
  (forall k d, nth k mask false = false -> nth k a' d = nth k a d) /\
  mask_assign a' mask vals = Ok a'.
Proof.
  unfold mask_assign.
  destruct (negb (Nat.eqb (length mask) (length a))) eqn:El; [discriminate |].
  destruct (Nat.eqb (length vals) (count_true mask)) eqn:Ec.
  - intros [= <-]. rewrite mask_fill_length, El, mask_fill_idem.
    repeat split. intros. apply mask_fill_keep. assumption.
  - destruct vals as [| v [| ? ?]]; try discriminate.
    intros [= <-]. rewrite mask_fill_length, El, mask_fill_idem.
    repeat split. intros. apply mask_fill_keep. assumption.
Qed.


Lemma where_true_In mask : forall k i,
  In i (where_true mask k) <-> (k <= i)%nat /\ nth (i - k) mask false = true.
Proof.
  induction mask as [| b mask IH]; intros k i; cbn [where_true].
  - split; [intros [] |]. intros [_ H]. destruct (i - k)%nat; discriminate.
  - destruct b; cbn [In]; rewrite IH; split.
    + intros [<- | [Hle H]].
      * rewrite Nat.sub_diag. split; [lia | reflexivity].
      * split; [lia |]. replace (i - k)%nat with (S (i - S k)) by lia. exact H.
    + intros [Hle H]. destruct (Nat.eq_dec k i) as [-> | Hne]; [left; reflexivity |].
      right. split; [lia |].
      replace (i - k)%nat with (S (i - S k)) in H by lia. exact H.
    + intros [Hle H]. split; [lia |].
      replace (i - k)%nat with (S (i - S k)) by lia. exact H.
    + intros [Hle H]. destruct (Nat.eq_dec k i) as [-> | Hne].
      * rewrite Nat.sub_diag in H. discriminate.
      * split; [lia |]. replace (i - k)%nat with (S (i - S k)) in H by lia. exact H.
Qed.

Lemma where_true_NoDup mask : forall k, NoDup (where_true mask k).
Proof.
  induction mask as [| b mask IH]; intros k; cbn [where_true]; [constructor |].
  destruct b; [| apply IH]. constructor; [| apply IH].
  intros H. apply where_true_In in H. lia.
Qed.



Lemma newly_NoDup old new : NoDup (newly old new).
Proof. apply where_true_NoDup. Qed.



End Masks.

(** ** Freezing stars *)

Section Freezing.

Import AllFit.

Variable G : Group.
Variable P : PSFModel.















End Freezing.

(** ** The freezing invariant *)

Section FreezingInvariant.

Import AllFit.

Variable G : Group.
Variable P : PSFModel.







Lemma frame_refl s : frame s s.
Proof. repeat split. Qed.




Lemma kf_raise {A} e : keeps_frame (@raise A e).
Proof. intros s s' r H. injection H as <- _. apply frame_refl. Qed.

Lemma kf_lift {A} (x : result A) : keeps_frame (lift x).
Proof. intros s s' r H. injection H as <- _. apply frame_refl. Qed.










End FreezingInvariant.

Section FreezingRun.

Import AllFit.


(** The call of [freeze] that froze the first star of the two-star group:
    its flags are set, iteration 1 is recorded, and its full-footprint model
    (35 on its four pixels, -5 on the pixel it shares with the second star)
    has left the residual buffer. *)
Example freeze_first_star :
  freezepars Demo.frozen0 = [true; true; true; false; false; false] /\
  freezestars Demo.frozen0 = [true; false] /\
  starniter Demo.frozen0 = [1; 0] /\
  Exact.show (resflatten Demo.frozen0)
    = [0; 0; 0; 0; 75 # 1; 70 # 1; 70 # 1; 70 # 1]%Q /\
  wf (Demo.group Demo.bright) Demo.frozen0.
Proof. repeat split; vm_compute; reflexivity. Qed.


End FreezingRun.

(** ** The contents of the fitting buffers ([getfitstar], [unpackfitstar]) *)

Section FitStarContents.

Import GetPSF.














End FitStarContents.

Section Collated.

Import GetPSF.






End Collated.

(** ** The contents of the footprint buffers ([getstar], [unpackstar]) *)

Section StarFootprint.

Import GetPSF.















End StarFootprint.

(** ** More on bounding boxes *)

Section BoundingBoxMore.

Import GetPSF.





End BoundingBoxMore.

(** ** The axis of a parabola and the line search *)

Section Bisector.

Import FitPSF.

Lemma qz_succ (k : nat) : qz (Z.of_nat (S k)) = (qz (Z.of_nat k) + 1)%Qc.
Proof.
  apply Qc_is_canon. rewrite this_plus, !this_qz.
  rewrite Nat2Z.inj_succ. unfold Z.succ. rewrite inject_Z_plus. reflexivity.
Qed.

Lemma qz_nonzero (k : nat) : (0 < k)%nat -> qz (Z.of_nat k) <> 0%Qc.
Proof.
  intros Hk E. apply (f_equal this) in E.
  assert (H : (qz (Z.of_nat k) == 0)%Q) by (rewrite E; reflexivity).
  rewrite this_qz in H.
  assert (H' : (inject_Z 0 < inject_Z (Z.of_nat k))%Q) by (rewrite <- Zlt_Qlt; lia).
  change (inject_Z 0) with 0%Q in H'. lra.
Qed.

(** The sums of [quadratic_bisector] for ordinates on a parabola. *)
Lemma parabola_sums (a b c : Qc) (x : vec) :
  let y := map (fun t => (a * (t * t) + b * t + c)%Qc) x in
  let x2 := vmul x x in
  vsum y = (a * vsum x2 + b * vsum x + c * qz (Z.of_nat (length x)))%Qc /\
  vsum (vmul x y) = (a * vsum (vmul x2 x) + b * vsum x2 + c * vsum x)%Qc /\
  vsum (vmul x2 y) = (a * vsum (vmul x2 x2) + b * vsum (vmul x2 x) + c * vsum x2)%Qc.
Proof.
  induction x as [| t x IH]; cbn zeta in *.
  - cbn. change (qz 0) with 0%Qc. repeat split; ring.
  - destruct IH as (I1 & I2 & I3).
    cbn [map vmul zipw vsum fold_right length] in *.
    fold (vmul x x) in *.
    fold (vmul x (map (fun t => (a * (t * t) + b * t + c)%Qc) x)) in *.
    fold (vmul (vmul x x) x) in *. fold (vmul (vmul x x) (vmul x x)) in *.
    fold (vmul (vmul x x) (map (fun t => (a * (t * t) + b * t + c)%Qc) x)) in *.
    fold (vsum (map (fun t => (a * (t * t) + b * t + c)%Qc) x)) in *.
    unfold vsum in *. rewrite I1, I2, I3, qz_succ. repeat split; ring.
Qed.

Lemma eqb_false (p q : Qc) : p <> q -> eqb p q = false.
Proof.
  intros H. unfold eqb. destruct (Qeq_bool p q) eqn:E; [| reflexivity].
  apply Qeq_bool_iff in E. apply Qc_is_canon in E. contradiction.
Qed.

(** On ordinates that lie on a parabola the regression is exact. *)
Lemma bisector_on_parabola (a b c : Qc) (x : vec) :
  (3 <= length x)%nat -> bisector_denom x <> 0%Qc -> a <> 0%Qc ->
  quadratic_bisector x (map (fun t => (a * (t * t) + b * t + c)%Qc) x)
  = Some (- b / (Q2Qc 2 * a))%Qc.
Proof.
  intros Hlen Hden Ha. unfold quadratic_bisector.
  replace (length x <? 3)%nat with false by (symmetry; apply Nat.ltb_ge; exact Hlen).
  destruct (parabola_sums a b c x) as (S0 & S1 & S2). cbn zeta in S0, S1, S2.
  rewrite S0, S1, S2. clear S0 S1 S2.
  unfold bisector_denom in Hden. cbn zeta in Hden.
  assert (Hn : qz (Z.of_nat (length x)) <> 0%Qc) by (apply qz_nonzero; lia).
  set (n := qz (Z.of_nat (length x))) in *.
  set (s1 := vsum x) in *. set (s2 := vsum (vmul x x)) in *.
  set (s3 := vsum (vmul (vmul x x) x)) in *.
  set (s4 := vsum (vmul (vmul x x) (vmul x x))) in *.
  set (den := ((s2 - s1 * s1 / n) * (s4 - s2 * s2 / n)
               - (s3 - s1 * s2 / n) * (s3 - s1 * s2 / n))%Qc) in *.
  rewrite (@eqb_false _ _ Hden).
  assert (Hden' : ((s2 * n - s1 * s1) * (s4 * n - s2 * s2)
                   - (s3 * n - s1 * s2) * (s3 * n - s1 * s2))%Qc <> 0%Qc).
  { intros E. apply Hden. unfold den.
    transitivity ((((s2 * n - s1 * s1) * (s4 * n - s2 * s2)
                    - (s3 * n - s1 * s2) * (s3 * n - s1 * s2)) / (n * n))%Qc).
    - field. exact Hn.
    - rewrite E. field. exact Hn. }
  assert (Ea : (((a * s4 + b * s3 + c * s2 - s2 * (a * s2 + b * s1 + c * n) / n)
                 * (s2 - s1 * s1 / n)
                 - (a * s3 + b * s2 + c * s1 - s1 * (a * s2 + b * s1 + c * n) / n)
                   * (s3 - s1 * s2 / n)) / den)%Qc = a).
  { unfold den in *. field. split; assumption. }
  assert (Eb : (((a * s3 + b * s2 + c * s1 - s1 * (a * s2 + b * s1 + c * n) / n)
                 * (s4 - s2 * s2 / n)
                 - (a * s4 + b * s3 + c * s2 - s2 * (a * s2 + b * s1 + c * n) / n)
                   * (s3 - s1 * s2 / n)) / den)%Qc = b).
  { unfold den in *. field. split; assumption. }
  rewrite Ea, Eb, (@eqb_false _ _ Ha). reflexivity.
Qed.

Lemma Qc_mul_nonzero (p q : Qc) : p <> 0%Qc -> q <> 0%Qc -> (p * q)%Qc <> 0%Qc.
Proof.
  intros Hp Hq E. destruct (Qcmult_integral _ _ E); contradiction.
Qed.

Lemma Qc_sub_nonzero (p q : Qc) : p <> q -> (p - q)%Qc <> 0%Qc.
Proof. intros H E. apply H. rewrite <- (Qcplus_0_r q), <- E. ring. Qed.

(** X8.  On three points of a parabola [a*t^2 + b*t + c] with distinct
    abscissae and [a <> 0], [quadratic_bisector] returns the axis of the
    parabola, [-b/(2a)]. *)
Theorem quadratic_bisector_three_points (x1 x2 x3 a b c : Qc) :
  x1 <> x2 -> x1 <> x3 -> x2 <> x3 -> a <> 0%Qc ->
  let p := fun t : Qc => (a * (t * t) + b * t + c)%Qc in
  quadratic_bisector [x1; x2; x3] [p x1; p x2; p x3]
  = Some (- b / (Q2Qc 2 * a))%Qc.
Proof.
  intros H12 H13 H23 Ha p.
  change [p x1; p x2; p x3] with (map p [x1; x2; x3]). subst p.
  apply (@bisector_on_parabola a b c [x1; x2; x3]); [cbn [length]; lia | | exact Ha].
  assert (E3 : qz (Z.of_nat 3) = (1 + 1 + 1)%Qc)
    by (apply Qc_is_canon; vm_compute; reflexivity).
  unfold bisector_denom. cbn [length vmul zipw vsum fold_right]. rewrite E3.
  assert (Hd : ((x1 - x2) * (x1 - x3) * (x2 - x3))%Qc <> 0%Qc).
  { repeat apply Qc_mul_nonzero; apply Qc_sub_nonzero; assumption. }
  assert (H3 : (1 + 1 + 1)%Qc <> 0%Qc)
    by (intros E; apply (f_equal this) in E; vm_compute in E; discriminate).
  intros E. apply (Qc_mul_nonzero Hd Hd).
  transitivity (((1 + 1 + 1) * 0)%Qc); [| ring].
  rewrite <- E. field. exact H3.
Qed.

Lemma quadratic_bisector_three_points_witness :
  let p := fun t : Qc => (Q2Qc 4 * (t * t) + Q2Qc (-2) * t + Q2Qc (1 # 4))%Qc in
  quadratic_bisector [0%Qc; Q2Qc (1 # 2); 1%Qc]
    [p 0%Qc; p (Q2Qc (1 # 2)); p 1%Qc]
  = Some (- Q2Qc (-2) / (Q2Qc 2 * Q2Qc 4))%Qc.
Proof.
  apply (@quadratic_bisector_three_points 0%Qc (Q2Qc (1 # 2)) 1%Qc
           (Q2Qc 4) (Q2Qc (-2)) (Q2Qc (1 # 4)));
    intros H; apply (f_equal this) in H; vm_compute in H; discriminate.
Defined.

Lemma minimum_le_r (p q : Qc) : (minimum p q <= q)%Qc.
Proof.
  unfold minimum, leb. destruct (Qle_bool p q) eqn:E.
  - apply Qle_bool_iff in E. exact E.
  - apply Qcle_refl.
Qed.

Lemma minimum_ge (p q r : Qc) : (r <= p)%Qc -> (r <= q)%Qc -> (r <= minimum p q)%Qc.
Proof. intros Hp Hq. unfold minimum. destruct (leb p q); assumption. Qed.

(** The step fraction of [linesearch] in terms of the three chi-squares. *)
Lemma linesearch_run {PF} (C : Calls PF) (pf : PF) (bestpar dbeta : vec) (f0 f1 f2 : Qc) :
  pf_chisq C pf bestpar = Ok f0 ->
  pf_chisq C pf (vadd bestpar (map (Qcmult (Q2Qc (1 # 2))) dbeta)) = Ok f1 ->
  pf_chisq C pf (vadd bestpar dbeta) = Ok f2 ->
  linesearch C pf bestpar dbeta
  = Ok (map (Qcmult
               match quadratic_bisector [0%Qc; Q2Qc (1 # 2); 1%Qc] [f0; f1; f2] with
               | Some a => minimum (maximum a 0%Qc) 1%Qc
               | None => 1%Qc
               end) dbeta).
Proof. intros H0 H1 H2. unfold linesearch. rewrite H0, H1, H2. reflexivity. Qed.

Lemma Ok_inj {A} (a b : A) : Ok a = Ok b -> a = b.
Proof. intros H. injection H. auto. Qed.

(** X9.  Whenever [linesearch] returns, the step it returns is the proposed
    step [dbeta] scaled by a factor [alpha] with [0 <= alpha <= 1]. *)
Theorem linesearch_step_fraction {PF} (C : Calls PF) (pf : PF)
    (bestpar dbeta new_dbeta : vec) :
  linesearch C pf bestpar dbeta = Ok new_dbeta ->
  exists alpha, (0 <= alpha)%Qc /\ (alpha <= 1)%Qc /\
                new_dbeta = map (Qcmult alpha) dbeta.
Proof.
  unfold linesearch. intros H.
  destruct (pf_chisq C pf bestpar) as [f0 |]; [| discriminate].
  destruct (pf_chisq C pf _) as [f1 |]; [| discriminate].
  destruct (pf_chisq C pf _) as [f2 |]; [| discriminate].
  cbn [bind] in H. apply Ok_inj in H. subst new_dbeta.
  exists (match quadratic_bisector [0%Qc; Q2Qc (1 # 2); 1%Qc] [f0; f1; f2] with
          | Some a => minimum (maximum a 0%Qc) 1%Qc
          | None => 1%Qc
          end).
  split; [| split; [| reflexivity]].
  - destruct (quadratic_bisector _ _) as [v |].
    + apply minimum_ge; [apply maximum_ge_r | unfold Qcle; vm_compute; discriminate].
    + unfold Qcle; vm_compute; discriminate.
  - destruct (quadratic_bisector _ _) as [v |].
    + apply minimum_le_r.
    + apply Qcle_refl.
Qed.

Lemma result_vec_show (r : result vec) (b : vec) :
  match r with
  | Ok a => Exact.show a = Exact.show b
  | Raise _ => False
  end -> r = Ok b.
Proof.
  destruct r as [a | e]; [| intros []].
  intros H. f_equal. apply vec_eq_show, H.
Qed.

Lemma linesearch_step_fraction_witness :
  exists alpha, (0 <= alpha)%Qc /\ (alpha <= 1)%Qc /\
                [Q2Qc (1 # 2)] = map (Qcmult alpha) [Q2Qc 2].
Proof.
  apply (@linesearch_step_fraction unit Demo.calls tt [0%Qc] [Q2Qc 2] [Q2Qc (1 # 2)]).
  apply result_vec_show. vm_compute. reflexivity.
Defined.

(** X10.  If the chi-square along the search direction is the parabola
    [a*t^2 + b*t + c] at [t = 0, 1/2, 1] (with [a <> 0]), [linesearch]
    returns [dbeta] scaled by the axis of the parabola [-b/(2a)], clipped
    to the interval [[0, 1]]. *)
Theorem linesearch_minimises_parabola {PF} (C : Calls PF) (pf : PF)
    (bestpar dbeta : vec) (a b c : Qc) :
  let chisq := fun t : Qc => (a * (t * t) + b * t + c)%Qc in
  pf_chisq C pf bestpar = Ok (chisq 0%Qc) ->
  pf_chisq C pf (vadd bestpar (map (Qcmult (Q2Qc (1 # 2))) dbeta))
    = Ok (chisq (Q2Qc (1 # 2))) ->
  pf_chisq C pf (vadd bestpar dbeta) = Ok (chisq 1%Qc) ->
  a <> 0%Qc ->
  linesearch C pf bestpar dbeta
  = Ok (map (Qcmult (minimum (maximum (- b / (Q2Qc 2 * a)) 0) 1)%Qc) dbeta).
Proof.
  intros chisq H0 H1 H2 Ha.
  rewrite (linesearch_run _ _ _ _ H0 H1 H2).
  change [chisq 0%Qc; chisq (Q2Qc (1 # 2)); chisq 1%Qc]
    with (map chisq [0%Qc; Q2Qc (1 # 2); 1%Qc]).
  unfold chisq.
  rewrite (@bisector_on_parabola a b c [0%Qc; Q2Qc (1 # 2); 1%Qc]);
    [reflexivity | cbn [length]; lia | | exact Ha].
  intros E. apply (f_equal this) in E. vm_compute in E. discriminate.
Qed.

Lemma linesearch_minimises_parabola_witness :
  linesearch Demo.calls tt [0%Qc] [Q2Qc 2]
  = Ok (map (Qcmult (minimum (maximum (- Q2Qc (-2) / (Q2Qc 2 * Q2Qc 4)) 0) 1)%Qc)
            [Q2Qc 2]).
Proof.
  apply (@linesearch_minimises_parabola unit Demo.calls tt [0%Qc] [Q2Qc 2]
           (Q2Qc 4) (Q2Qc (-2)) (Q2Qc (1 # 4))).
  - cbv [pf_chisq Demo.calls pf_model bind]. apply f_equal, Qc_is_canon.
    vm_compute. reflexivity.
  - cbv [pf_chisq Demo.calls pf_model bind]. apply f_equal, Qc_is_canon.
    vm_compute. reflexivity.
  - cbv [pf_chisq Demo.calls pf_model bind]. apply f_equal, Qc_is_canon.
    vm_compute. reflexivity.
  - intros H; apply (f_equal this) in H; vm_compute in H; discriminate.
Defined.

End Bisector.

(** ** Unit weights *)

Section UnitWeights.

Import LeastSquares.

Lemma scale_rows_ones (J : mat) : scale_rows J (repeat 1%Qc (length J)) = J.
Proof.
  unfold scale_rows. induction J as [| row J IH]; cbn [length repeat zipw];
    [reflexivity |].
  rewrite IH. f_equal. rewrite <- (map_id row) at 2. apply map_ext. intros a. ring.
Qed.

Lemma vmul_ones_r (r : vec) (n : nat) :
  (length r <= n)%nat -> vmul r (repeat 1%Qc n) = r.
Proof.
  revert n; induction r as [| x r IH]; intros [| n] H; cbn in *; try reflexivity;
    try lia.
  unfold vmul in IH. rewrite IH by lia. f_equal. ring.
Qed.

(** X11.  For a residual with one entry per row of the Jacobian, a weight
    vector of ones gives the same result as no weight, for every method of
    [jac_solve] (unsupported method names and [None] included). *)
Theorem unit_weights_are_no_weights (B : Backend) (J : mat) (r : vec)
    (method : option string) :
  length r = length J ->
  jac_solve B J r method (Some (repeat 1%Qc (length J)))
  = jac_solve B J r method None.
Proof.
  intros Hr.
  assert (Hw : apply_weight J r (Some (repeat 1%Qc (length J))) = apply_weight J r None).
  { unfold apply_weight. rewrite scale_rows_ones, vmul_ones_r by lia.
    reflexivity. }
  destruct method as [m |]; [| reflexivity].
  unfold jac_solve, qr_jac_solve, svd_jac_solve, cholesky_jac_solve,
    cholesky_jac_sparse_solve.
  rewrite Hw. reflexivity.
Qed.

Lemma unit_weights_are_no_weights_witness :
  jac_solve Exact.backend Exact.J0 Exact.r0 (Some "qr"%string)
    (Some (repeat 1%Qc (length Exact.J0)))
  = jac_solve Exact.backend Exact.J0 Exact.r0 (Some "qr"%string) None.
Proof.
  apply (@unit_weights_are_no_weights Exact.backend Exact.J0 Exact.r0
           (Some "qr"%string)).
  reflexivity.
Defined.

End UnitWeights.

(** ** The methods of the group fitter *)

Section FitterMethods.

Import AllFit.

Variable G : Group.
Variable P : PSFModel.
Variable N : Numerics.

Lemma mask_select_length {A} (a : list A) (mask : list bool) :
  length mask = length a -> length (mask_select a mask) = count_true mask.
Proof.
  revert mask; induction a as [| x a IH]; intros [| b mask] H; try discriminate;
    [reflexivity |].
  injection H as H. unfold count_true in *. destruct b; cbn; rewrite IH by exact H;
    reflexivity.
Qed.

Lemma count_true_le (mask : list bool) : (count_true mask <= length mask)%nat.
Proof. unfold count_true. apply filter_length_le. Qed.

Lemma count_free_lt (fs : list bool) (i : nat) :
  nth i fs false = true -> (count_true (map negb fs) < length fs)%nat.
Proof.
  revert i; induction fs as [| b fs IH]; intros i Hi.
  - destruct i; discriminate.
  - destruct i as [| i]; cbn in Hi.
    + subst b. unfold count_true. cbn.
      pose proof (count_true_le (map negb fs)) as H. unfold count_true in H.
      rewrite length_map in H. lia.
    + apply IH in Hi. unfold count_true in *. destruct b; cbn; lia.
Qed.

Lemma heightfit_guess allpars (l : list nat) : forall A use guess,
  length (snd (fold_left (heightfit_star G P allpars) l (A, use, guess)))
  = (length guess + length l)%nat.
Proof.
  induction l as [| i l IH]; intros A use guess; cbn [fold_left length].
  - cbn. lia.
  - unfold heightfit_star at 2. rewrite IH, length_app. cbn. lia.
Qed.

Lemma dostars_length s :
  length (freezestars s) = nstars G ->
  length (dostars G s false) = nfreestars s.
Proof.
  intros H. unfold dostars, nfreestars, freestars.
  apply mask_select_length. rewrite length_map, length_seq. exact H.
Qed.

(** X12.  [heightfit] needs every star free.  Once a star is frozen, the
    design matrix still has one column per star while the initial guess has
    one entry per free star, and the product [A.dot(guess)] raises
    [ValueError]; the fitter is left as it was. *)
Theorem heightfit_needs_every_star_free (trim : bool) (s : Fitter) (i : nat) :
  length (freezestars s) = nstars G ->
  nth i (freezestars s) false = true ->
  heightfit G P N trim s = (s, Raise (ValueError "dimension mismatch")).
Proof.
  intros Hlen Hi. unfold heightfit, bindM, get. cbv beta iota.
  pose proof (heightfit_guess (pars s) (dostars G s false)
                (repeat (repeat 0%Qc (nstars G)) (ntotpix G))
                (repeat false (ntotpix G)) []) as Hg.
  destruct (fold_left _ _ _) as [[A use] guess]. cbn [snd length] in Hg.
  rewrite dostars_length in Hg by exact Hlen.
  pose proof (count_free_lt _ _ Hi) as Hlt. fold (freestars s) in Hlt.
  fold (nfreestars s) in Hlt.
  replace (Nat.eqb (nstars G) (length guess)) with false
    by (symmetry; apply Nat.eqb_neq; lia).
  reflexivity.
Qed.

Lemma nth_skipn_add {A} (a : list A) lo k d :
  nth k (skipn lo a) d = nth (lo + k) a d.
Proof.
  revert a. induction lo as [| lo IH]; intros a; [reflexivity |].
  destruct a as [| x a]; cbn [skipn Nat.add nth]; [destruct k; reflexivity | apply IH].
Qed.

Lemma nth_firstn_lt {A} (b : list A) n k d :
  (k < n)%nat -> nth k (firstn n b) d = nth k b d.
Proof.
  revert b k. induction n as [| n IH]; intros b k Hk; [lia |].
  destruct b as [| x b]; cbn [firstn]; [reflexivity |].
  destruct k as [| k]; cbn [nth]; [reflexivity | apply IH; lia].
Qed.

Lemma nth_slice {A} (a : list A) lo n k d :
  (k < n)%nat -> nth k (slice a lo n) d = nth (lo + k) a d.
Proof.
  intros Hk. unfold slice. rewrite nth_firstn_lt by exact Hk. apply nth_skipn_add.
Qed.

(** The loop of [centroid]: it goes through as long as the stars have both
    positions frozen and stops at the first star that has not. *)
Lemma centroid_loop s (l : list nat) : forall xa ya,
  foldM (centroid_star s) l (xa, ya)
  = if forallb (fun i => nth (3 * i + 1) (freezepars s) false
                         && nth (3 * i + 2) (freezepars s) false) l
    then Ok (xa ++ map (fun i => nth (3 * i + 1) (pars s) 0%Qc) l,
             ya ++ map (fun i => nth (3 * i + 2) (pars s) 0%Qc) l)
    else Raise (NameError "cholesky_jac_solve").
Proof.
  induction l as [| i l IH]; intros xa ya; cbn [foldM forallb map].
  - rewrite !app_nil_r. reflexivity.
  - unfold centroid_star at 1. rewrite !nth_slice by lia. cbn [fst snd].
    destruct (nth (3 * i + 1) (freezepars s) false
              && nth (3 * i + 2) (freezepars s) false); cbn [bind andb].
    + rewrite IH. rewrite <- !app_assoc. reflexivity.
    + reflexivity.
Qed.

(** X13.  [centroid] never moves a star and leaves the fitter as it was.
    If every free star has both positions frozen it returns the current
    positions of the free stars; otherwise it reaches the call of
    [cholesky_jac_solve], a name the module does not define, and raises
    [NameError]. *)
Theorem centroid_never_moves_a_star (s : Fitter) :
  let free := dostars G s false in
  centroid G s
  = (s, if forallb (fun i => nth (3 * i + 1) (freezepars s) false
                             && nth (3 * i + 2) (freezepars s) false) free
        then Ok (map (fun i => nth (3 * i + 1) (pars s) 0%Qc) free,
                 map (fun i => nth (3 * i + 2) (pars s) 0%Qc) free)
        else Raise (NameError "cholesky_jac_solve")).
Proof.
  cbn zeta. unfold centroid, bindM, get, lift. cbv beta iota.
  rewrite centroid_loop. reflexivity.
Qed.

Lemma fancy_set_length {A} (a : list A) idx v : length (fancy_set a idx v) = length a.
Proof.
  unfold fancy_set. revert a. induction idx as [| k idx IH]; intros a; cbn [fold_left].
  - reflexivity.
  - rewrite IH. apply set_nth_length.
Qed.

Lemma fancy_add_length (a : vec) idx vals : length (fancy_add a idx vals) = length a.
Proof.
  unfold fancy_add. generalize (zipw (fun k v => (k, (nth k a 0 + v)%Qc)) idx vals).
  intros l. revert a. induction l as [| kv l IH]; intros b; cbn [fold_left].
  - reflexivity.
  - rewrite IH. apply set_nth_length.
Qed.

Lemma Forall_set_nth {A} (Q : A -> Prop) (l : list A) k v :
  Forall Q l -> ((k < length l)%nat -> Q v) -> Forall Q (set_nth l k v).
Proof.
  revert k. induction l as [| h t IH]; intros k Hl Hv; [destruct k; constructor |].
  inversion Hl as [| ? ? Hh Ht]; subst. destruct k as [| k]; cbn [set_nth].
  - constructor; [apply Hv; cbn; lia | exact Ht].
  - constructor; [exact Hh |]. apply IH; [exact Ht |]. intros H. apply Hv. cbn. lia.
Qed.

Lemma fancy_set_col_shape (m : mat) idx c vals (w : nat) :
  Forall (fun row => length row = w) m ->
  length (fancy_set_col m idx c vals) = length m /\
  Forall (fun row => length row = w) (fancy_set_col m idx c vals).
Proof.
  unfold fancy_set_col. generalize (zipw (fun k v => (k, v)) idx vals) as l.
  intros l. revert m. induction l as [| kv l IH]; intros m Hm; cbn [fold_left].
  - split; [reflexivity | exact Hm].
  - destruct (IH (set_nth m (fst kv) (set_nth (nth (fst kv) m []) c (snd kv))))
      as [L F].
    + apply Forall_set_nth; [exact Hm |]. intros Hk. rewrite set_nth_length.
      rewrite Forall_forall in Hm. apply Hm. apply nth_In. exact Hk.
    + split; [rewrite L; apply set_nth_length | exact F].
Qed.

(** The arrays that the loop of [jac] builds keep their shapes. *)
Lemma jac_star_shape allpars (w : nat) (acc : mat * vec * list bool) (i : nat) :
  Forall (fun row => length row = w) (fst (fst acc)) ->
  let r := jac_star G P allpars acc i in
  length (fst (fst r)) = length (fst (fst acc)) /\
  Forall (fun row => length row = w) (fst (fst r)) /\
  length (snd (fst r)) = length (snd (fst acc)) /\
  length (snd r) = length (snd acc).
Proof.
  destruct acc as [[jacm im] use]. cbn [fst snd]. intros Hm.
  unfold jac_star. cbn [fst snd].
  set (idx := nth i (invindexlist G) []).
  set (md := map _ (nth i (xylist G) [])).
  destruct (@fancy_set_col_shape jacm idx (3 * i) (col 0 (map snd md)) w Hm)
    as [A1 A2].
  destruct (@fancy_set_col_shape _ idx (3 * i + 1) (col 1 (map snd md)) w A2)
    as [B1 B2].
  destruct (@fancy_set_col_shape _ idx (3 * i + 2) (col 2 (map snd md)) w B2)
    as [C1 C2].
  split; [congruence |]. split; [exact C2 |].
  split; [apply fancy_add_length | apply fancy_set_length].
Qed.

Lemma jac_loop_shape allpars (l : list nat) (w : nat) : forall acc,
  Forall (fun row => length row = w) (fst (fst acc)) ->
  let r := fold_left (jac_star G P allpars) l acc in
  length (fst (fst r)) = length (fst (fst acc)) /\
  Forall (fun row => length row = w) (fst (fst r)) /\
  length (snd (fst r)) = length (snd (fst acc)) /\
  length (snd r) = length (snd acc).
Proof.
  induction l as [| i l IH]; intros acc Hm; cbn [fold_left].
  - cbn zeta. auto.
  - destruct (@jac_star_shape allpars w acc i Hm) as (A1 & A2 & A3 & A4).
    destruct (IH _ A2) as (B1 & B2 & B3 & B4).
    cbn zeta in *.
    split; [rewrite B1; exact A1 |]. split; [exact B2 |].
    split; [rewrite B3; exact A3 | rewrite B4; exact A4].
Qed.

Lemma all_pars_length args allparams check s s' allpars :
  all_pars args allparams check s = (s', Ok allpars) ->
  freezepars s' = freezepars s /\ length (pars s') = length (pars s) /\
  njaciter s' = njaciter s /\ niter s' = niter s.
Proof.
  unfold all_pars, bindM, get, lift, modify, ret, raise. cbv beta iota.
  destruct ((0 <? nfreezepars s)%nat && negb allparams); cbv beta iota.
  - destruct (check && negb (Nat.eqb (length args) (length (pars s) - nfreezepars s)));
      cbv beta iota; [discriminate |].
    destruct (mask_assign (pars s) (freepars s) args) as [p1 | e] eqn:E;
      cbv beta iota; [| discriminate].
    intros H. injection H as <- _. cbn. apply mask_assign_ok in E.
    destruct E as (E & _). auto.
  - intros H. injection H as <- _. auto.
Qed.

Lemma keep_rows_length {A} (m : list A) (use : list bool) :
  length use = length m -> length (keep_rows m use) = count_true use.
Proof. apply mask_select_length. Qed.

(** X14.  The shape of what [jac] returns.  The model has one entry and the
    Jacobian one row per pixel in use ([usepix] with [trim], all [ntotpix]
    pixels without), the Jacobian has one column per free parameter (per
    parameter with [allparams]), [usepix] keeps its size, [njaciter] has
    been incremented by one and [niter] is untouched. *)
Theorem jac_shape (args : vec) (trim allparams : bool) (s s' : Fitter)
    (im : vec) (J : mat) :
  length (freezepars s) = length (pars s) ->
  jac G P args trim allparams s = (s', Ok (im, J)) ->
  let rows := if trim then count_true (usepix s') else ntotpix G in
  let cols := if allparams then length (pars s)
              else count_true (freepars s) in
  length J = rows /\ length im = rows /\
  Forall (fun row => length row = cols) J /\
  length (usepix s') = ntotpix G /\
  njaciter s' = njaciter s + 1 /\ niter s' = niter s.
Proof.
  intros Hfp. unfold jac. unfold bindM at 1.
  destruct (all_pars args allparams true s) as [s1 [allpars | e]] eqn:Ep;
    [| discriminate].
  apply all_pars_length in Ep. destruct Ep as (Efp & Elen & Enj & Eni).
  unfold bindM at 1. unfold get at 1. cbv beta iota.
  pose proof (@jac_loop_shape allpars (dostars G s1 allparams) (length (pars s1))
                (repeat (repeat 0%Qc (length (pars s1))) (ntotpix G),
                 repeat 0%Qc (ntotpix G), repeat false (ntotpix G))) as Hshape.
  cbn zeta in Hshape. cbn [fst snd] in Hshape.
  destruct (fold_left _ _ _) as [[jacm im0] use].
  cbn [fst snd] in Hshape.
  destruct Hshape as (L1 & L2 & L3 & L4).
  { apply Forall_forall. intros row Hr. apply repeat_spec in Hr. subst row.
    apply repeat_length. }
  rewrite repeat_length in L1, L3, L4.
  unfold bindM, modify, ret. cbv beta iota.
  intros H. injection H as <- <- <-.
  cbn [usepix njaciter niter set_njaciter set_usepix].
  assert (Hcnt : (count_true use <= ntotpix G)%nat)
    by (rewrite <- L4; apply count_true_le).
  assert (Hfree : nfreezepars s1 = nfreezepars s)
    by (unfold nfreezepars; rewrite Efp; reflexivity).
  assert (Hfreepars : freepars s1 = freepars s)
    by (unfold freepars; rewrite Efp; reflexivity).
  set (jacm1 := if (0 <? nfreezepars s1)%nat && negb allparams
                then map (fun row => mask_select row (freepars s1)) jacm else jacm).
  assert (Hrows1 : length jacm1 = ntotpix G).
  { unfold jacm1. destruct (_ && _); [rewrite length_map |]; exact L1. }
  assert (Hcols1 : Forall (fun row => length row
                             = if allparams then length (pars s)
                               else count_true (freepars s)) jacm1).
  { unfold jacm1. destruct allparams.
    - rewrite andb_false_r. rewrite <- Elen. exact L2.
    - rewrite andb_true_r. destruct (0 <? nfreezepars s1)%nat eqn:Ez.
      + apply Forall_forall. intros row Hr. apply in_map_iff in Hr.
        destruct Hr as (row0 & <- & Hr0). rewrite Forall_forall in L2.
        rewrite Hfreepars. apply mask_select_length.
        unfold freepars. rewrite length_map, (L2 _ Hr0). congruence.
      + apply Nat.ltb_ge in Ez. rewrite Hfree in Ez.
        assert (Hall : count_true (freepars s) = length (pars s)).
        { unfold nfreezepars in Ez. rewrite <- Hfp. clear - Ez.
          unfold freepars, count_true in *.
          induction (freezepars s) as [| b l IH]; [reflexivity |].
          destruct b; cbn in *; [lia | rewrite IH by lia; reflexivity]. }
        rewrite Hall, <- Elen. exact L2. }
  destruct trim; cbn [andb].
  - destruct (count_true use <? ntotpix G)%nat eqn:Et.
    + rewrite !keep_rows_length by congruence.
      repeat split; try reflexivity; try exact L4; try congruence.
      unfold keep_rows. clear - Hcols1. revert use.
      induction jacm1 as [| row m IH]; intros [| b use]; cbn; try constructor.
      inversion Hcols1; subst. destruct b; [constructor |]; auto.
    + apply Nat.ltb_ge in Et.
      repeat split; try reflexivity; try exact L4; try exact Hcols1;
        try congruence; lia.
  - repeat split; try reflexivity; try exact L4; try exact Hcols1;
      try congruence; assumption.
Qed.

Lemma delete_where_select {A} (a : list A) (m : list bool) r :
  length m = length a -> delete_where a m = Ok r ->
  r = mask_select a (map negb m).
Proof.
  revert m r. induction a as [| x a IH]; intros [| b m] r Hlen; try discriminate.
  - cbn. intros H. injection H as <-. reflexivity.
  - injection Hlen as Hlen. cbn [delete_where map mask_select].
    destruct (delete_where a m) as [r0 | e] eqn:E; cbn [bind]; [| discriminate].
    intros H. injection H as <-. rewrite (IH m r0 Hlen E).
    destruct b; reflexivity.
Qed.

Lemma delete_where_none {A} (a : list A) (m : list bool) :
  length m = length a -> count_true m = 0%nat ->
  mask_select a (map negb m) = a.
Proof.
  revert m. induction a as [| x a IH]; intros [| b m] Hlen Hz; try discriminate;
    [reflexivity |].
  injection Hlen as Hlen. unfold count_true in *. destruct b; cbn in *; [lia |].
  rewrite IH by assumption. reflexivity.
Qed.

(** Writing the free entries and their new flags, then reading the entries
    that are still free, gives the values whose flag was not set. *)
Lemma mask_fill_select {A} (fp : list bool) :
  forall (base vals : list A) (frz : list bool),
    length base = length fp ->
    length vals = count_true (map negb fp) ->
    length frz = count_true (map negb fp) ->
    mask_select (mask_fill base (map negb fp) vals)
                (map negb (mask_fill fp (map negb fp) frz))
    = mask_select vals (map negb frz).
Proof.
  unfold count_true.
  induction fp as [| b fp IH]; intros base vals frz Hb Hv Hf.
  - destruct base; [| discriminate]. destruct vals; [| discriminate].
    destruct frz; [| discriminate]. reflexivity.
  - destruct base as [| x base]; [discriminate |]. injection Hb as Hb.
    destruct b; cbn [map negb mask_fill filter length] in *.
    + cbn [mask_select]. apply IH; assumption.
    + destruct vals as [| v vals]; [discriminate |].
      destruct frz as [| f frz]; [discriminate |].
      injection Hv as Hv. injection Hf as Hf.
      cbn [mask_select map negb]. rewrite IH by assumption. reflexivity.
Qed.

Lemma mask_assign_exact {A} (a : list A) mask vals :
  length mask = length a -> length vals = count_true mask ->
  mask_assign a mask vals = Ok (mask_fill a mask vals).
Proof.
  intros Hm Hv. unfold mask_assign.
  rewrite Hm, Nat.eqb_refl. cbn [negb]. rewrite Hv, Nat.eqb_refl. reflexivity.
Qed.

(** X15.  What [freeze] returns.  When [freeze] is given one value and one
    flag per free parameter and returns, the result is its input without
    the entries flagged in [frzpars]; it is also the free part of
    [self.pars] afterwards, and the number of free parameters has dropped
    by the number of flagged entries. *)
Theorem freeze_returns_free_parameters (pars_in : vec) (frz : list bool)
    (s s' : Fitter) (out : vec) :
  length (freezepars s) = length (pars s) ->
  length pars_in = count_true (freepars s) ->
  length frz = count_true (freepars s) ->
  freeze G P pars_in frz s = (s', Ok out) ->
  out = mask_select pars_in (map negb frz) /\
  out = mask_select (pars s') (freepars s') /\
  length out = count_true (freepars s') /\
  (count_true (freepars s') + count_true frz = count_true (freepars s))%nat.
Proof.
  intros Hfp Hp Hf.
  assert (Hsel : length (map negb frz) = length pars_in)
    by (rewrite length_map; congruence).
  unfold freeze, bindM, get, lift, modify, ret. cbv beta iota.
  rewrite mask_assign_exact
    by (unfold freepars in *; rewrite ?length_map; congruence).
  cbv beta iota. cbn [freezepars set_pars].
  rewrite mask_assign_exact
    by (unfold freepars in *; rewrite ?length_map; congruence).
  cbv beta iota.
  set (pars1 := mask_fill (pars s) (freepars s) pars_in).
  set (fp1 := mask_fill (freezepars s) (freepars s) frz).
  assert (Hround : mask_select pars1 (map negb fp1)
                   = mask_select pars_in (map negb frz)).
  { unfold pars1, fp1, freepars. apply mask_fill_select; unfold freepars in *;
      congruence. }
  assert (Hcount : forall o, o = mask_select pars_in (map negb frz) ->
            length o = count_true (map negb fp1) /\
            (count_true (map negb fp1) + count_true frz
             = count_true (freepars s))%nat).
  { intros o ->. rewrite <- Hround.
    rewrite mask_select_length
      by (unfold pars1, fp1; rewrite length_map, !mask_fill_length; congruence).
    split; [reflexivity |].
    rewrite <- (@mask_select_length _ pars1 (map negb fp1))
      by (unfold pars1, fp1; rewrite length_map, !mask_fill_length; congruence).
    rewrite Hround, mask_select_length by exact Hsel.
    rewrite <- Hf. clear. unfold count_true.
    induction frz as [| b l IH]; [reflexivity |]. destruct b; cbn; lia. }
  assert (Hfinal : forall s1 o,
            pars s1 = pars1 -> freezepars s1 = fp1 ->
            o = mask_select pars_in (map negb frz) ->
            o = mask_select pars_in (map negb frz) /\
            o = mask_select (pars s1) (freepars s1) /\
            length o = count_true (freepars s1) /\
            (count_true (freepars s1) + count_true frz
             = count_true (freepars s))%nat).
  { intros s1 o E1 E2 Eo. unfold freepars at 1 2 3. rewrite E1, E2, Hround.
    destruct (Hcount o Eo) as [C1 C2]. auto. }
  destruct (Nat.eqb (count_true frz) 0) eqn:Ez; cbv beta iota.
  { apply Nat.eqb_eq in Ez. intros H. injection H as <- <-.
    apply Hfinal; try reflexivity.
    symmetry. apply delete_where_none; [congruence | exact Ez]. }
  destruct (stars_all_frozen G fp1) as [fs1 | e]; cbv beta iota; [| discriminate].
  cbn [freezestars set_freezepars set_pars].
  destruct (newly_frozen (freezestars s) fs1) as [new | e]; cbv beta iota;
    [| discriminate].
  destruct new as [| i0 new']; cbv beta iota.
  - destruct (delete_where pars_in frz) as [o |] eqn:Ed; [| discriminate].
    intros H. injection H as <- <-.
    apply Hfinal; try reflexivity.
    apply delete_where_select; [congruence | exact Ed].
  - destruct (delete_where pars_in frz) as [o |] eqn:Ed; [| discriminate].
    intros H. injection H as <- <-.
    apply Hfinal; try reflexivity.
    apply delete_where_select; [congruence | exact Ed].
Qed.

Lemma model_loop_length allpars (l : list nat) : forall acc,
  length (fst (fold_left (model_star G P allpars) l acc)) = length (fst acc).
Proof.
  induction l as [| i l IH]; intros acc; cbn [fold_left]; [reflexivity |].
  rewrite IH. unfold model_star. cbn [fst]. apply fancy_add_length.
Qed.

Lemma chisq_by_errors (r e : vec) :
  vsum (zipw Qcdiv (map sq r) (map sq e))
  = LeastSquares.chisq_weighted (map (fun x => (1 / (x * x))%Qc) e) r.
Proof.
  unfold LeastSquares.chisq_weighted. f_equal.
  revert e. induction r as [| x r IH]; intros [| y e]; cbn; try reflexivity.
  rewrite IH. f_equal. unfold sq, Qcdiv. ring.
Qed.

(** X16.  [AllFitter.cov] computes the covariance of [leastsquares.py]:
    when its calls of [jac] and [model] return, its result (a matrix or the
    exception of [np.linalg.inv]) is that of [jac_covariance] on the
    Jacobian of all parameters, the residual [imflatten - skyflatten - model]
    and the weights [1/errflatten**2]. *)
Theorem cov_is_jac_covariance (s s1 s2 : Fitter) (m bm : vec) (J : mat) :
  (0 < ntotpix G)%nat ->
  length (errflatten G) = ntotpix G -> length (imflatten G) = ntotpix G ->
  length (skyflatten s) = ntotpix G ->
  jac G P (pars s) false true s = (s1, Ok (m, J)) ->
  model G P (pars s1) false true s1 = (s2, Ok bm) ->
  snd (cov G P N s)
  = LeastSquares.jac_covariance (lsq_backend N) J
      (vsub (vsub (imflatten G) (skyflatten s)) bm)
      (Some (map (fun e => (1 / (e * e))%Qc) (errflatten G))).
Proof.
  intros Hn He Hi Hs Hjac Hmodel.
  unfold cov. unfold bindM at 1. unfold get at 1. cbv beta iota.
  unfold bindM at 1. rewrite Hjac. cbv beta iota. cbn [snd].
  (* the shapes of the Jacobian and of the model *)
  assert (Hshape : length J = ntotpix G /\ ncols J = length (pars s)
                   /\ pars s1 = pars s /\ skyflatten s1 = skyflatten s).
  { revert Hjac. unfold jac, all_pars, bindM, get, lift, modify, ret.
    cbv beta iota. cbn [negb]. rewrite !andb_false_r. cbv beta iota.
    pose proof (@jac_loop_shape (pars s) (dostars G s true) (length (pars s))
                  (repeat (repeat 0%Qc (length (pars s))) (ntotpix G),
                   repeat 0%Qc (ntotpix G), repeat false (ntotpix G))) as Hsh.
    cbn zeta in Hsh. cbn [fst snd] in Hsh.
    destruct (fold_left _ _ _) as [[jacm im0] use]. cbn [fst snd] in Hsh.
    destruct Hsh as (L1 & L2 & _ & _).
    { apply Forall_forall. intros row Hr. apply repeat_spec in Hr. subst row.
      apply repeat_length. }
    rewrite repeat_length in L1. cbn [andb]. cbv beta iota.
    intros H. injection H as <- _ <-.
    split; [exact L1 |]. split; [| split; reflexivity].
    unfold ncols. destruct jacm as [| row jacm]; [cbn in L1; lia |].
    inversion L2; subst. cbn. assumption. }
  destruct Hshape as (HJ & Hc & Hp1 & Hs1).
  assert (Hm : length bm = ntotpix G /\ pars s2 = pars s1
               /\ skyflatten s2 = skyflatten s1).
  { revert Hmodel. unfold model, all_pars, bindM, get, lift, modify, ret.
    cbv beta iota. cbn [negb]. rewrite !andb_false_r. cbv beta iota. cbn [andb].
    intros H. injection H as <- <-.
    split; [| split; reflexivity].
    rewrite model_loop_length. cbn [fst]. apply repeat_length. }
  destruct Hm as (Hbm & Hp2 & Hs2).
  unfold LeastSquares.jac_covariance. cbn [option_map].
  unfold lift at 1. unfold bindM at 1.
  destruct (LeastSquares.np_linalg_inv (lsq_backend N) _) as [cov_orig | e];
    cbv beta iota; cbn [bind snd]; [| reflexivity].
  unfold bindM at 1. unfold get at 1. cbv beta iota.
  unfold bindM at 1. rewrite Hmodel. cbv beta iota.
  unfold bindM, get, ret. cbv beta iota. cbn [snd].
  rewrite Hs2, Hs1, Hp2, Hp1, HJ, Hc.
  rewrite chisq_broadcast, chisq_by_errors; [reflexivity |].
  rewrite length_map. unfold vsub. rewrite !zipw_length. lia.
Qed.






End FitterMethods.

(** ** The [qr] solve and the normal equations *)

Section QRSolve.

Import LeastSquares.

Lemma dot_nil_r (a : vec) : dot a [] = 0%Qc.
Proof. destruct a; reflexivity. Qed.

Lemma dot_zeros_l {A} (l : list A) (v : vec) : dot (map (fun _ => 0%Qc) l) v = 0%Qc.
Proof.
  revert v. induction l as [| c l IH]; intros [| y v]; try reflexivity.
  cbn [map]. rewrite dot_cons, IH. ring.
Qed.

Lemma dot_map_linear {A} (x : Qc) (f g : A -> Qc) (l : list A) (v : vec) :
  dot (map (fun c => (x * f c + g c)%Qc) l) v
  = (x * dot (map f l) v + dot (map g l) v)%Qc.
Proof.
  revert v. induction l as [| c l IH]; intros [| y v]; cbn [map];
    try (unfold dot; cbn; ring).
  rewrite !dot_cons, IH. ring.
Qed.

Lemma map_nth_seq_id (row : vec) :
  map (fun c => nth c row 0%Qc) (seq 0 (length row)) = row.
Proof.
  induction row as [| x row IH]; [reflexivity |].
  cbn [length seq map nth]. f_equal. rewrite <- seq_shift, map_map. exact IH.
Qed.

(** Exchanging the two sums of [a^T B v]. *)
Lemma dot_matmul_row (a : vec) (Bm : mat) (n : nat) (v : vec) :
  Forall (fun row => length row = n) Bm ->
  dot (map (fun c => dot a (col c Bm)) (seq 0 n)) v = dot a (matvec Bm v).
Proof.
  revert a. induction Bm as [| b0 Bm IH]; intros a HB.
  - cbn [matvec map]. rewrite dot_nil_r.
    rewrite (map_ext _ (fun _ => 0%Qc)) by (intros c; apply dot_nil_r).
    apply dot_zeros_l.
  - inversion HB as [| ? ? Hb0 HB']; subst.
    destruct a as [| a0 a].
    + rewrite (map_ext _ (fun _ => 0%Qc)) by reflexivity.
      rewrite dot_zeros_l. reflexivity.
    + cbn [matvec map]. rewrite dot_cons. fold (matvec Bm v).
      rewrite <- (IH a HB').
      rewrite (map_ext (fun c => dot (a0 :: a) (col c (b0 :: Bm)))
                       (fun c => (a0 * nth c b0 0 + dot a (col c Bm))%Qc))
        by (intros c; reflexivity).
      rewrite dot_map_linear, map_nth_seq_id. reflexivity.
Qed.

Lemma matvec_matmul (A Bm : mat) (v : vec) :
  rect Bm -> matvec (matmul A Bm) v = matvec A (matvec Bm v).
Proof.
  intros HB. unfold matvec at 1 2, matmul. rewrite map_map.
  apply map_ext. intros a. apply dot_matmul_row. exact HB.
Qed.

Lemma col_matmul (A Bm : mat) (c : nat) :
  (c < ncols Bm)%nat -> col c (matmul A Bm) = matvec A (col c Bm).
Proof.
  intros Hc. unfold col at 1, matmul, matvec. rewrite map_map.
  apply map_ext. intros a.
  apply (nth_map_seq (fun k => dot a (col k Bm))). exact Hc.
Qed.

(** [(Q c) . u = c . (Q^T u)] *)
Lemma dot_matvec_adjoint (Q : mat) (c u : vec) :
  rect Q -> dot (matvec Q c) u = dot c (matvec (transpose Q) u).
Proof.
  intros HQ. rewrite matvec_transpose.
  rewrite (dot_comm (matvec Q c) u), <- (dot_matmul_row u c HQ).
  rewrite dot_comm. f_equal. apply map_ext. intros k. apply dot_comm.
Qed.

Lemma matvec_identity (n : nat) (v : vec) :
  length v = n -> matvec (diag (repeat 1%Qc n)) v = v.
Proof.
  intros <-. rewrite matvec_diag by (rewrite repeat_length; reflexivity).
  apply vmul_ones.
Qed.

Lemma rect_scale_rows (J : mat) (w : vec) :
  length w = length J -> rect J -> rect (scale_rows J w).
Proof.
  intros Hlen HJ. unfold rect. rewrite ncols_scale_rows by exact Hlen.
  unfold rect in HJ. revert HJ. generalize (ncols J) as n. intros n.
  revert w Hlen. induction J as [| row J IH]; intros [| wi w] Hlen HJ;
    try discriminate; [constructor |].
  inversion HJ; subst. cbn. constructor; [apply length_map |].
  apply IH; [cbn in Hlen; lia | assumption].
Qed.

(** The least-squares solve [rinv @ (q.T @ resid)] satisfies the normal
    equations of the array that was factored. *)
Lemma qr_normal_equations (Jm Q R Rinv : mat) (r : vec) :
  let n := ncols Jm in
  rect Jm -> rect Q -> ncols Q = n -> rect R -> ncols R = n -> rect Rinv ->
  matmul Q R = Jm ->
  matmul (transpose Q) Q = diag (repeat 1%Qc n) ->
  matmul R Rinv = diag (repeat 1%Qc n) ->
  matvec (matmul (transpose Jm) Jm) (matvec Rinv (matvec (transpose Q) r))
  = matvec (transpose Jm) r.
Proof.
  intros n HJ HQ HQn HR HRn HRi EQR EQ ER.
  set (u := matvec (transpose Q) r).
  assert (Hu : length u = n).
  { unfold u, matvec, transpose. rewrite !length_map, length_seq. exact HQn. }
  assert (Hadj : forall z, matvec (transpose Jm) z
                           = map (fun a => dot (col a R) (matvec (transpose Q) z))
                                 (seq 0 n)).
  { intros z. rewrite matvec_transpose. fold n. apply map_ext_in.
    intros a Ha. apply in_seq in Ha. rewrite <- EQR.
    rewrite col_matmul by lia. apply dot_matvec_adjoint. exact HQ. }
  rewrite matvec_matmul by exact HJ.
  rewrite !Hadj. fold u. apply map_ext. intros a. f_equal.
  rewrite <- EQR at 1. rewrite matvec_matmul by exact HR.
  rewrite <- (matvec_matmul R u HRi), ER, matvec_identity by exact Hu.
  rewrite <- (matvec_matmul (transpose Q) u HQ), EQ.
  apply matvec_identity. exact Hu.
Qed.

(** X18.  The [qr] method solves the weighted normal equations, given what
    numpy documents for its routines.  If [np.linalg.qr] returns
    rectangular factors [q], [r] of the row-scaled Jacobian with
    [q @ r = jac], [q.T @ q = I] and [np.linalg.inv] returns a right inverse
    of [r], then [jac_solve] with [method='qr'] returns an [x] with
    [(J^T W J) x = J^T W r] for [W = diag(w*w)]. *)
Theorem qr_solves_normal_equations (B : Backend) (J Q R Rinv : mat) (r w : vec) :
  let n := ncols J in
  length w = length J -> length r = length J -> rect J ->
  np_linalg_qr B (scale_rows J w) = Ok (Q, R) ->
  rect Q -> ncols Q = n -> rect R -> ncols R = n ->
  matmul Q R = scale_rows J w ->
  matmul (transpose Q) Q = diag (repeat 1%Qc n) ->
  np_linalg_inv B R = Ok Rinv ->
  rect Rinv -> matmul R Rinv = diag (repeat 1%Qc n) ->
  exists x,
    jac_solve B J r (Some "qr"%string) (Some w) = Ok x /\
    solves_normal_equations J (diag (vmul w w)) r x.
Proof.
  intros n Hw Hr HJ Eqr HQ HQn HR HRn EQR EQ Einv HRi ER.
  unfold jac_solve, qr_jac_solve, apply_weight. cbn [String.eqb Ascii.eqb Bool.eqb].
  rewrite Eqr. cbn [bind]. rewrite Einv. cbn [bind].
  eexists. split; [reflexivity |].
  unfold solves_normal_equations.
  rewrite <- scaled_normal_matrix, <- scaled_normal_rhs by assumption.
  assert (Hn : ncols (scale_rows J w) = n) by (apply ncols_scale_rows; exact Hw).
  apply (@qr_normal_equations (scale_rows J w) Q R Rinv (vmul r w));
    rewrite ?Hn; try assumption.
  apply rect_scale_rows; assumption.
Qed.

End QRSolve.

(** ** Runs on explicit inputs *)

Section FootprintRuns.

Import GetPSF.




End FootprintRuns.

Section FitterRuns.

Import AllFit.

Lemma heightfit_needs_every_star_free_witness :
  heightfit (Demo.group Demo.bright) Demo.psf Demo.numerics false Demo.frozen0
  = (Demo.frozen0, Raise (ValueError "dimension mismatch")).
Proof.
  apply (@heightfit_needs_every_star_free (Demo.group Demo.bright) Demo.psf
           Demo.numerics false Demo.frozen0 0); vm_compute; reflexivity.
Defined.

Lemma jac_shape_witness :
  let G := Demo.group Demo.bright in
  let r := jac G Demo.psf Demo.initpar false false Demo.start in
  let s' := fst r in
  let im := match snd r with Ok (im, _) => im | Raise _ => [] end in
  let J := match snd r with Ok (_, J) => J | Raise _ => [] end in
  length J = ntotpix G /\ length im = ntotpix G /\
  Forall (fun row => length row = count_true (freepars Demo.start)) J /\
  length (usepix s') = ntotpix G /\
  njaciter s' = njaciter Demo.start + 1 /\ niter s' = niter Demo.start.
Proof.
  intros G r s' im J.
  apply (@jac_shape G Demo.psf Demo.initpar false false Demo.start s' im J);
    vm_compute; reflexivity.
Defined.

Lemma freeze_returns_free_parameters_witness :
  let G := Demo.group Demo.bright in
  let r := freeze G Demo.psf Demo.initpar
             [true; true; true; false; false; false] Demo.start in
  let s' := fst r in
  let out := match snd r with Ok out => out | Raise _ => [] end in
  out = mask_select Demo.initpar
          (map negb [true; true; true; false; false; false]) /\
  out = mask_select (pars s') (freepars s') /\
  length out = count_true (freepars s') /\
  (count_true (freepars s') + count_true [true; true; true; false; false; false]
   = count_true (freepars Demo.start))%nat.
Proof.
  intros G r s' out.
  apply (@freeze_returns_free_parameters G Demo.psf Demo.initpar
           [true; true; true; false; false; false] Demo.start s' out);
    vm_compute; reflexivity.
Defined.

Lemma cov_is_jac_covariance_witness :
  let G := Demo.group Demo.bright in
  let s := Demo.start in
  let r1 := jac G Demo.psf (pars s) false true s in
  let J := match snd r1 with Ok (_, J) => J | Raise _ => [] end in
  let r2 := model G Demo.psf (pars (fst r1)) false true (fst r1) in
  let bm := match snd r2 with Ok bm => bm | Raise _ => [] end in
  snd (cov G Demo.psf Demo.numerics s)
  = LeastSquares.jac_covariance (lsq_backend Demo.numerics) J
      (vsub (vsub (imflatten G) (skyflatten s)) bm)
      (Some (map (fun e => (1 / (e * e))%Qc) (errflatten G))).
Proof.
  intros G s r1 J r2 bm.
  apply (@cov_is_jac_covariance G Demo.psf Demo.numerics s (fst r1) (fst r2)
           (match snd r1 with Ok (m, _) => m | Raise _ => [] end) bm J);
    try (vm_compute; reflexivity).
  vm_compute; lia.
Defined.


End FitterRuns.

Section QRRun.

Import LeastSquares.

Lemma mat_eq_show (A Bm : mat) : map Exact.show A = map Exact.show Bm -> A = Bm.
Proof.
  revert Bm; induction A as [| a A IH]; intros [| b Bm] H; try discriminate;
    [reflexivity |].
  injection H as Hab HAB. f_equal; [apply vec_eq_show; exact Hab | auto].
Qed.

Lemma qr_solves_normal_equations_witness :
  exists x,
    jac_solve Exact.backend Exact.J0 Exact.r0 (Some "qr"%string) (Some Exact.w0)
    = Ok x /\
    solves_normal_equations Exact.J0 (diag (vmul Exact.w0 Exact.w0)) Exact.r0 x.
Proof.
  apply (@qr_solves_normal_equations Exact.backend Exact.J0
           [[Q2Qc (3 # 5)]; [Q2Qc (4 # 5)]] [[Q2Qc 5]] [[Q2Qc (1 # 5)]]
           Exact.r0 Exact.w0);
    try reflexivity;
    try (repeat constructor; fail);
    apply mat_eq_show; vm_compute; reflexivity.
Defined.

End QRRun.
